(** * tiny_rb: a shallow embedding of the macro ring buffer of [tiny_rb.h]

    The header declares, per buffer NAME, one static struct
    [{ buf[CAPACITY]; capacity; head; tail; count }] and a family of macros
    that read and write its fields.  Here the struct is a record, every
    [size_t] field is an integer kept in [0, 2^64) with the wrap-around of
    unsigned arithmetic written out, and every macro is a computation in a
    small state monad over the record.  An array access outside [buf] and a
    [%] by zero have no defined behaviour in C: the monad has an explicit
    [Undefined] outcome for them. *)

From Stdlib Require Import ZArith Lia.
From stdpp Require Import base tactics option list.

Local Open Scope Z_scope.

(** ** [size_t] arithmetic *)

Module SizeT.
Definition bits : Z := 64.
Definition modulus : Z := 2 ^ bits.
(** Conversion to [size_t]: reduction modulo [2^bits]. *)
Definition wrap (z : Z) : Z := z mod modulus.
End SizeT.

(** ** The buffer object *)

Record trb (T : Type) : Type := Trb {
  buf : list T;
  capacity : Z;
  head : Z;
  tail : Z;
  count : Z
}.
Arguments Trb {T} _ _ _ _ _.
Arguments buf {T} _.
Arguments capacity {T} _.
Arguments head {T} _.
Arguments tail {T} _.
Arguments count {T} _.

(** ** Outcomes and the state monad of the macros *)

Inductive outcome (A : Type) : Type :=
| Done (a : A)
| Undefined.
Arguments Done {A} a.
Arguments Undefined {A}.

Definition M (T A : Type) : Type := trb T -> outcome (A * trb T).

Definition ret {T A} (a : A) : M T A := fun s => Done (a, s).

Definition bind {T A B} (m : M T A) (k : A -> M T B) : M T B :=
  fun s => match m s with
           | Done (a, s') => k a s'
           | Undefined => Undefined
           end.

Declare Scope trb_scope.
Delimit Scope trb_scope with trb.
Notation "'let*' x ':=' m 'in' k" := (bind m (fun x => k))
  (at level 10, x name, m at level 100, k at level 200) : trb_scope.
Notation "'do' m 'then' k" := (bind m (fun _ => k))
  (at level 10, m at level 100, k at level 200) : trb_scope.
Local Open Scope trb_scope.

Section Fields.
Context {T : Type}.

(** Reading a field of [_trb_NAME_buf]. *)
Definition load (f : trb T -> Z) : M T Z := fun s => Done (f s, s).

(** Assignments to the three mutable fields. *)
Definition set_head (z : Z) : M T unit :=
  fun s => Done (tt, Trb (buf s) (capacity s) z (tail s) (count s)).
Definition set_tail (z : Z) : M T unit :=
  fun s => Done (tt, Trb (buf s) (capacity s) (head s) z (count s)).
Definition set_count (z : Z) : M T unit :=
  fun s => Done (tt, Trb (buf s) (capacity s) (head s) (tail s) z).

(** [buf[i]] is an object of the array only for [0 <= i < CAPACITY]. *)
Definition in_bounds (i : Z) (s : trb T) : bool :=
  (0 <=? i) && (i <? Z.of_nat (length (buf s))).

(** [memcpy(VALUE_PTR, &buf[i], sizeof buf[0])] *)
Definition buf_read (i : Z) : M T T :=
  fun s => if in_bounds i s
           then match buf s !! Z.to_nat i with
                | Some x => Done (x, s)
                | None => Undefined
                end
           else Undefined.

(** [memcpy(&buf[i], VALUE_PTR, sizeof buf[0])] *)
Definition buf_write (i : Z) (v : T) : M T unit :=
  fun s => if in_bounds i s
           then Done (tt, Trb (<[Z.to_nat i := v]> (buf s))
                              (capacity s) (head s) (tail s) (count s))
           else Undefined.

(** [a % b] on [size_t]. *)
Definition umod (a b : Z) : M T Z :=
  if b =? 0 then (fun _ => Undefined) else ret (a mod b).
End Fields.

(** ** The macros of [tiny_rb.h] *)

Section Macros.
Context {T : Type}.

(** [TRB_RB_DEFINE(TYPE, NAME, CAPACITY)]; [zero] is the value of a
    zero-initialised [TYPE]. *)
Definition TRB_RB_DEFINE (zero : T) (CAPACITY : Z) : trb T :=
  {| buf := replicate (Z.to_nat CAPACITY) zero;
     capacity := SizeT.wrap CAPACITY;
     head := 0;
     tail := 0;
     count := 0 |}.

Definition trb_is_empty : M T bool :=
  let* c := load count in ret (c =? 0).

Definition trb_is_full : M T bool :=
  let* c := load count in
  let* cap := load capacity in
  ret (c =? cap).

Definition trb_size : M T Z := load count.

Definition trb_capacity : M T Z := load capacity.

Definition trb_remaining : M T Z :=
  let* cap := load capacity in
  let* c := load count in
  ret (SizeT.wrap (cap - c)).

Definition trb_flush : M T unit :=
  do set_head 0 then
  do set_tail 0 then
  set_count 0.

Definition trb_fifo_push (v : T) : M T Z :=
  let* full := trb_is_full in
  if full then ret (-1)
  else
    let* t := load tail in
    do buf_write t v then
    let* t := load tail in
    let* cap := load capacity in
    let* t' := umod (SizeT.wrap (t + 1)) cap in
    do set_tail t' then
    let* c := load count in
    do set_count (SizeT.wrap (c + 1)) then
    ret 0.

Definition trb_fifo_force_push (v : T) : M T unit :=
  let* t := load tail in
  do buf_write t v then
  let* t := load tail in
  let* cap := load capacity in
  let* t' := umod (SizeT.wrap (t + 1)) cap in
  do set_tail t' then
  let* full := trb_is_full in
  if full then
    let* h := load head in
    let* cap := load capacity in
    let* h' := umod (SizeT.wrap (h + 1)) cap in
    set_head h'
  else
    let* c := load count in
    set_count (SizeT.wrap (c + 1)).

(** The pop and peek macros take the current content [out] of
    [*VALUE_PTR] and return, with the status, its content afterwards. *)
Definition trb_fifo_pop (out : T) : M T (Z * T) :=
  let* empty := trb_is_empty in
  if empty then ret (-1, out)
  else
    let* h := load head in
    let* x := buf_read h in
    let* h := load head in
    let* cap := load capacity in
    let* h' := umod (SizeT.wrap (h + 1)) cap in
    do set_head h' then
    let* c := load count in
    do set_count (SizeT.wrap (c - 1)) then
    ret (0, x).

Definition trb_fifo_peek (out : T) : M T (Z * T) :=
  let* empty := trb_is_empty in
  if empty then ret (-1, out)
  else
    let* h := load head in
    let* x := buf_read h in
    ret (0, x).

Definition trb_lifo_push (v : T) : M T Z :=
  let* full := trb_is_full in
  if full then ret (-1)
  else
    let* h := load head in
    do buf_write h v then
    let* h := load head in
    do set_head (SizeT.wrap (h + 1)) then
    let* c := load count in
    do set_count (SizeT.wrap (c + 1)) then
    ret 0.

Definition trb_lifo_pop (out : T) : M T (Z * T) :=
  let* empty := trb_is_empty in
  if empty then ret (-1, out)
  else
    let* h := load head in
    let* x := buf_read (SizeT.wrap (h - 1)) in
    let* h := load head in
    do set_head (SizeT.wrap (h - 1)) then
    let* c := load count in
    do set_count (SizeT.wrap (c - 1)) then
    ret (0, x).

Definition trb_lifo_peek (out : T) : M T (Z * T) :=
  let* empty := trb_is_empty in
  if empty then ret (-1, out)
  else
    let* h := load head in
    let* x := buf_read (SizeT.wrap (h - 1)) in
    ret (0, x).
End Macros.

(** ** Programs over one buffer

    A client such as [example.c] owns one buffer and one variable [value]
    whose address it passes to the pop and peek macros.  An operation is
    one macro call; its reply is what the call evaluates to. *)

Inductive query : Type := IsEmpty | IsFull | Size | Capacity | Remaining.

Inductive op (T : Type) : Type :=
| FifoPush (v : T)
| FifoForcePush (v : T)
| FifoPop
| FifoPeek
| LifoPush (v : T)
| LifoPop
| LifoPeek
| Flush
| Query (q : query).
Arguments FifoPush {T} v.
Arguments FifoForcePush {T} v.
Arguments FifoPop {T}.
Arguments FifoPeek {T}.
Arguments LifoPush {T} v.
Arguments LifoPop {T}.
Arguments LifoPeek {T}.
Arguments Flush {T}.
Arguments Query {T} q.

(** [Status] is the [int] of the push, pop and peek macros ([0] or [-1]),
    [Value] the result of a query, [Void] stands for the statement macros. *)
Inductive reply : Type :=
| Status (code : Z)
| Value (z : Z)
| Void.

Definition Full : reply := Status (-1).
Definition Empty : reply := Status (-1).
Definition Success : reply := Status 0.

Section Programs.
Context {T : Type}.

Definition exec_query (q : query) : M T Z :=
  match q with
  | IsEmpty => let* b := trb_is_empty in ret (if b then 1 else 0)
  | IsFull => let* b := trb_is_full in ret (if b then 1 else 0)
  | Size => trb_size
  | Capacity => trb_capacity
  | Remaining => trb_remaining
  end.

(** One macro call of the client; [out] is the content of [value] before
    the call, the second component of the result its content after. *)
Definition exec (o : op T) (out : T) : M T (reply * T) :=
  match o with
  | FifoPush v => let* r := trb_fifo_push v in ret (Status r, out)
  | FifoForcePush v => do trb_fifo_force_push v then ret (Void, out)
  | FifoPop => let* r := trb_fifo_pop out in ret (Status r.1, r.2)
  | FifoPeek => let* r := trb_fifo_peek out in ret (Status r.1, r.2)
  | LifoPush v => let* r := trb_lifo_push v in ret (Status r, out)
  | LifoPop => let* r := trb_lifo_pop out in ret (Status r.1, r.2)
  | LifoPeek => let* r := trb_lifo_peek out in ret (Status r.1, r.2)
  | Flush => do trb_flush then ret (Void, out)
  | Query q => let* z := exec_query q in ret (Value z, out)
  end.

(** A sequence of calls; the trace lists, call by call, the reply and the
    content of [value] after it. *)
Fixpoint run (ops : list (op T)) (out : T) : M T (list (reply * T)) :=
  match ops with
  | [] => ret []
  | o :: ops' =>
      let* r := exec o out in
      let* tr := run ops' r.2 in
      ret (r :: tr)
  end.

(** The two disciplines; [flush] and the queries belong to both. *)
Definition fifo_mode (o : op T) : bool :=
  match o with
  | FifoPush _ | FifoForcePush _ | FifoPop | FifoPeek | Flush | Query _ => true
  | LifoPush _ | LifoPop | LifoPeek => false
  end.

Definition lifo_mode (o : op T) : bool :=
  match o with
  | LifoPush _ | LifoPop | LifoPeek | Flush | Query _ => true
  | FifoPush _ | FifoForcePush _ | FifoPop | FifoPeek => false
  end.

Definition any_mode (o : op T) : bool := true.

(** States the buffer declared with [CAPACITY] passes through when the
    client only issues calls accepted by [allowed]. *)
Inductive reachable (allowed : op T -> bool) (zero : T) (CAPACITY : Z)
  : trb T -> Prop :=
| reach_init : reachable allowed zero CAPACITY (TRB_RB_DEFINE zero CAPACITY)
| reach_step s o out r s' :
    reachable allowed zero CAPACITY s ->
    allowed o = true ->
    exec o out s = Done (r, s') ->
    reachable allowed zero CAPACITY s'.
End Programs.

(** A declaration [TRB_RB_DEFINE(TYPE, NAME, CAPACITY)] is well formed when
    the array has at least one element and its size fits [size_t]. *)
Definition valid_capacity (CAPACITY : Z) : Prop :=
  0 < CAPACITY < SizeT.modulus.

(** ** The walkthrough of [example.c] *)

Module Example.
(** [user_type_t] *)
Definition user_type_t : Type := Z * Z.
Definition a : user_type_t := (1, 2).
Definition b : user_type_t := (3, 4).
Definition c : user_type_t := (5, 6).
Definition test : trb user_type_t := TRB_RB_DEFINE (0, 0) 3.
Definition test1 : trb Z := TRB_RB_DEFINE 0 10.

Definition fifo_part : list (op user_type_t) :=
  [ Query Capacity;
    FifoPush a; FifoPush b; FifoPush c; FifoPush a;
    FifoForcePush b; FifoForcePush b; FifoForcePush b;
    Query Size; Query Remaining;
    FifoPop; FifoPop; FifoPop;
    FifoPush a; Flush;
    FifoPop; Query Size; Query Remaining ].

Definition lifo_part : list (op user_type_t) :=
  [ LifoPush a; LifoPush b; LifoPush c; LifoPush a;
    LifoPop; LifoPop; LifoPop; LifoPop ].

(** [test] after the three pushes of [a], [b], [c]. *)
Definition full : trb user_type_t :=
  {| buf := [a; b; c]; capacity := 3; head := 0; tail := 0; count := 3 |}.

(** [test] after the three stack pushes of [a], [b], [c]. *)
Definition stacked : trb user_type_t :=
  {| buf := [a; b; c]; capacity := 3; head := 3; tail := 0; count := 3 |}.

(** Queue calls followed by a stack push: [head] is left at the end of
    the array while one slot is counted as free. *)
Definition mixed_part : list (op user_type_t) :=
  [ FifoPush a; FifoPush b; FifoPush c; FifoPop; FifoPop; LifoPush a ].

(** [test] after [mixed_part]. *)
Definition mixed : trb user_type_t :=
  {| buf := [a; b; a]; capacity := 3; head := 3; tail := 0; count := 2 |}.
End Example.

(** ** Logical content

    What the buffer holds is what successive pops would deliver: in FIFO
    mode [count] slots from [head] on, walking upwards modulo [capacity];
    in LIFO mode [count] slots below [head], walking downwards. *)

Section Contents.
Context {T : Type}.

Fixpoint ring_read (b : list T) (cap start : Z) (n : nat) : list T :=
  match n with
  | O => []
  | S n' =>
      match b !! Z.to_nat start with
      | Some x => x :: ring_read b cap ((start + 1) mod cap) n'
      | None => []
      end
  end.

(** Oldest element first. *)
Definition fifo_contents (s : trb T) : list T :=
  ring_read (buf s) (capacity s) (head s) (Z.to_nat (count s)).

Fixpoint stack_read (b : list T) (top : Z) (n : nat) : list T :=
  match n with
  | O => []
  | S n' =>
      match b !! Z.to_nat (top - 1) with
      | Some x => x :: stack_read b (top - 1) n'
      | None => []
      end
  end.

(** Most recently pushed element first. *)
Definition lifo_contents (s : trb T) : list T :=
  stack_read (buf s) (head s) (Z.to_nat (count s)).

(** The state invariant of a buffer used as a queue. *)
Definition fifo_inv (CAP : Z) (s : trb T) : Prop :=
  length (buf s) = Z.to_nat CAP /\
  capacity s = CAP /\
  0 <= head s < CAP /\
  0 <= count s <= CAP /\
  tail s = (head s + count s) mod CAP.

(** The state invariant of a buffer used as a stack. *)
Definition lifo_inv (CAP : Z) (s : trb T) : Prop :=
  length (buf s) = Z.to_nat CAP /\
  capacity s = CAP /\
  head s = count s /\
  0 <= count s <= CAP.

(** What every state satisfies, whatever the calls were. *)
Definition shape_inv (CAP : Z) (s : trb T) : Prop :=
  length (buf s) = Z.to_nat CAP /\
  capacity s = CAP /\
  0 <= count s <= CAP /\
  0 <= head s <= CAP.
End Contents.

(** ** The queue and the stack of the specification

    Bounded queue of capacity [N], oldest element first: push appends
    unless [N] elements are held, force-push drops the oldest element when
    [N] are held, pop and peek deliver the oldest one. *)

Module QueueSpec.
Section QueueSpec.
Context {T : Type} (N : Z).

Definition size (q : list T) : Z := Z.of_nat (length q).

Definition answer (qu : query) (q : list T) : Z :=
  match qu with
  | IsEmpty => if size q =? 0 then 1 else 0
  | IsFull => if size q =? N then 1 else 0
  | Size => size q
  | Capacity => N
  | Remaining => N - size q
  end.

Definition step (o : op T) (out : T) (q : list T)
  : option ((reply * T) * list T) :=
  match o with
  | FifoPush v =>
      if size q =? N then Some ((Full, out), q)
      else Some ((Success, out), q ++ [v])
  | FifoForcePush v =>
      if size q =? N then Some ((Void, out), drop 1 q ++ [v])
      else Some ((Void, out), q ++ [v])
  | FifoPop =>
      match q with
      | [] => Some ((Empty, out), q)
      | x :: q' => Some ((Success, x), q')
      end
  | FifoPeek =>
      match q with
      | [] => Some ((Empty, out), q)
      | x :: _ => Some ((Success, x), q)
      end
  | Flush => Some ((Void, out), [])
  | Query qu => Some ((Value (answer qu q), out), q)
  | LifoPush _ | LifoPop | LifoPeek => None
  end.

Fixpoint steps (ops : list (op T)) (out : T) (q : list T)
  : option (list (reply * T) * list T) :=
  match ops with
  | [] => Some ([], q)
  | o :: ops' =>
      match step o out q with
      | Some (r, q') =>
          match steps ops' r.2 q' with
          | Some (tr, q'') => Some (r :: tr, q'')
          | None => None
          end
      | None => None
      end
  end.
End QueueSpec.
End QueueSpec.

(** Bounded stack of capacity [N], most recent element first. *)

Module StackSpec.
Section StackSpec.
Context {T : Type} (N : Z).

Definition size (st : list T) : Z := Z.of_nat (length st).

Definition answer (qu : query) (st : list T) : Z :=
  match qu with
  | IsEmpty => if size st =? 0 then 1 else 0
  | IsFull => if size st =? N then 1 else 0
  | Size => size st
  | Capacity => N
  | Remaining => N - size st
  end.

Definition step (o : op T) (out : T) (st : list T)
  : option ((reply * T) * list T) :=
  match o with
  | LifoPush v =>
      if size st =? N then Some ((Full, out), st)
      else Some ((Success, out), v :: st)
  | LifoPop =>
      match st with
      | [] => Some ((Empty, out), st)
      | x :: st' => Some ((Success, x), st')
      end
  | LifoPeek =>
      match st with
      | [] => Some ((Empty, out), st)
      | x :: _ => Some ((Success, x), st)
      end
  | Flush => Some ((Void, out), [])
  | Query qu => Some ((Value (answer qu st), out), st)
  | FifoPush _ | FifoForcePush _ | FifoPop | FifoPeek => None
  end.

Fixpoint steps (ops : list (op T)) (out : T) (st : list T)
  : option (list (reply * T) * list T) :=
  match ops with
  | [] => Some ([], st)
  | o :: ops' =>
      match step o out st with
      | Some (r, st') =>
          match steps ops' r.2 st' with
          | Some (tr, st'') => Some (r :: tr, st'')
          | None => None
          end
      | None => None
      end
  end.
End StackSpec.
End StackSpec.

(** * Properties *)

(** ** Arithmetic of indices *)

Lemma modulus_value : SizeT.modulus = 18446744073709551616.
Proof. reflexivity. Qed.

Lemma wrap_small z : 0 <= z < SizeT.modulus -> SizeT.wrap z = z.
Proof. intros H. unfold SizeT.wrap. apply Z.mod_small. exact H. Qed.

Lemma wrap_underflow : SizeT.wrap (0 - 1) = SizeT.modulus - 1.
Proof. reflexivity. Qed.

Lemma mod_once x c :
  0 <= x < 2 * c -> x mod c = if x <? c then x else x - c.
Proof.
  intros H. destruct (Z.ltb_spec x c) as [Hlt | Hge].
  - apply Z.mod_small. lia.
  - symmetry. apply Z.mod_unique_pos with (q := 1); lia.
Qed.

Lemma mod_succ_shift a n c :
  0 < c -> ((a + 1) mod c + n) mod c = (a + (n + 1)) mod c.
Proof.
  intros Hc. rewrite Zplus_mod_idemp_l. f_equal. lia.
Qed.

Lemma mod_add_distinct a k c :
  0 <= a < c -> 0 < k < c -> (a + k) mod c <> a.
Proof.
  intros Ha Hk. rewrite mod_once by lia.
  destruct (Z.ltb_spec (a + k) c); lia.
Qed.

(** ** Reading the ring *)

Section RingRead.
Context {T : Type}.
Implicit Types (b : list T) (v : T).

Lemma ring_read_length b cap start n :
  Z.of_nat (length b) = cap -> 0 <= start < cap ->
  length (ring_read b cap start n) = n.
Proof.
  intros Hlen. revert start. induction n as [| n IH]; intros start Hs.
  - reflexivity.
  - simpl. destruct (lookup_lt_is_Some_2 b (Z.to_nat start)) as [x Hx];
      [lia |].
    rewrite Hx. simpl. f_equal. apply IH.
    apply Z.mod_pos_bound. lia.
Qed.

(** A write to the slot just past the window extends it by one. *)
Lemma ring_read_insert_snoc b cap start n v :
  Z.of_nat (length b) = cap -> 0 <= start < cap -> Z.of_nat n < cap ->
  ring_read (<[Z.to_nat ((start + Z.of_nat n) mod cap) := v]> b)
            cap start (S n)
  = ring_read b cap start n ++ [v].
Proof.
  intros Hlen. revert start. induction n as [| n IH]; intros start Hs Hn.
  - simpl. rewrite Z.add_0_r, Z.mod_small by lia.
    rewrite list_lookup_insert_eq by lia. reflexivity.
  - assert (Hne : (start + Z.of_nat (S n)) mod cap <> start)
      by (apply mod_add_distinct; lia).
    assert (Hm : 0 <= (start + Z.of_nat (S n)) mod cap)
      by (apply Z.mod_pos_bound; lia).
    change (ring_read ?l cap start (S (S n)))
      with (match l !! Z.to_nat start with
            | Some x => x :: ring_read l cap ((start + 1) mod cap) (S n)
            | None => []
            end).
    rewrite list_lookup_insert_ne by lia.
    simpl ring_read at 2.
    destruct (lookup_lt_is_Some_2 b (Z.to_nat start)) as [x Hx]; [lia |].
    rewrite Hx. simpl. f_equal.
    replace ((start + Z.of_nat (S n)) mod cap)
      with (((start + 1) mod cap + Z.of_nat n) mod cap)
      by (rewrite mod_succ_shift by lia; f_equal; lia).
    apply IH.
    + apply Z.mod_pos_bound. lia.
    + lia.
Qed.

Lemma stack_read_length b top n :
  Z.of_nat n <= top <= Z.of_nat (length b) ->
  length (stack_read b top n) = n.
Proof.
  revert top. induction n as [| n IH]; intros top Ht.
  - reflexivity.
  - simpl. destruct (lookup_lt_is_Some_2 b (Z.to_nat (top - 1))) as [x Hx];
      [lia |].
    rewrite Hx. simpl. f_equal. apply IH. lia.
Qed.

(** A write at or above the top does not change the stack below. *)
Lemma stack_read_insert_above b top n i v :
  Z.of_nat n <= top -> top <= i ->
  stack_read (<[Z.to_nat i := v]> b) top n = stack_read b top n.
Proof.
  revert top. induction n as [| n IH]; intros top Hn Hi.
  - reflexivity.
  - simpl. rewrite list_lookup_insert_ne by lia.
    destruct (b !! Z.to_nat (top - 1)); [| reflexivity].
    f_equal. apply IH; lia.
Qed.
End RingRead.

(** ** Single calls *)

Arguments in_bounds : simpl never.
Arguments SizeT.wrap : simpl never.

Ltac unfold_macros :=
  unfold exec, exec_query,
    trb_fifo_push, trb_fifo_force_push, trb_fifo_pop, trb_fifo_peek,
    trb_lifo_push, trb_lifo_pop, trb_lifo_peek,
    trb_flush, trb_is_full, trb_is_empty, trb_size, trb_capacity,
    trb_remaining,
    bind, ret, load, set_head, set_tail, set_count,
    buf_read, buf_write, umod;
  simpl.

Ltac unfold_macros_in H :=
  unfold exec, exec_query,
    trb_fifo_push, trb_fifo_force_push, trb_fifo_pop, trb_fifo_peek,
    trb_lifo_push, trb_lifo_pop, trb_lifo_peek,
    trb_flush, trb_is_full, trb_is_empty, trb_size, trb_capacity,
    trb_remaining,
    bind, ret, load, set_head, set_tail, set_count,
    buf_read, buf_write, umod in H;
  simpl in H.

Ltac bool_facts :=
  repeat match goal with
    | H : (_ =? _) = true |- _ => apply Z.eqb_eq in H
    | H : (_ =? _) = false |- _ => apply Z.eqb_neq in H
    | H : in_bounds _ _ = true |- _ =>
        unfold in_bounds in H; simpl in H;
        apply andb_prop in H; destruct H as [?H ?H]
    | H : (_ <=? _) = true |- _ => apply Z.leb_le in H
    | H : (_ <? _) = true |- _ => apply Z.ltb_lt in H
    end.

Lemma in_bounds_true {T} i (s : trb T) :
  0 <= i < Z.of_nat (length (buf s)) -> in_bounds i s = true.
Proof.
  intros [H0 H1]. unfold in_bounds.
  apply andb_true_intro. split; [apply Z.leb_le | apply Z.ltb_lt]; lia.
Qed.

(** Symbolic evaluation of a macro body once its guards are known. *)
Ltac crank :=
  repeat (simpl;
          first [ rewrite in_bounds_true by (simpl; lia)
                | rewrite wrap_small by (rewrite modulus_value; lia)
                | rewrite Z.eqb_refl
                | rewrite (proj2 (Z.eqb_neq _ _)) by lia
                | rewrite (proj2 (Z.eqb_eq _ _)) by lia ]).

Section Calls.
Context {T : Type}.
Implicit Types (s : trb T) (v out : T).

Lemma fifo_inv_tail CAP s :
  valid_capacity CAP -> fifo_inv CAP s -> 0 <= tail s < CAP.
Proof.
  intros HC (_ & _ & _ & _ & ->). apply Z.mod_pos_bound.
  unfold valid_capacity in HC. lia.
Qed.

Lemma fifo_push_full s v :
  count s = capacity s -> trb_fifo_push v s = Done (-1, s).
Proof.
  intros H. unfold_macros. rewrite H, Z.eqb_refl. reflexivity.
Qed.

Lemma lifo_push_full s v :
  count s = capacity s -> trb_lifo_push v s = Done (-1, s).
Proof.
  intros H. unfold_macros. rewrite H, Z.eqb_refl. reflexivity.
Qed.

Lemma fifo_push_ok CAP s v :
  valid_capacity CAP -> fifo_inv CAP s -> count s <> capacity s ->
  trb_fifo_push v s =
    Done (0, {| buf := <[Z.to_nat (tail s) := v]> (buf s);
                capacity := capacity s;
                head := head s;
                tail := (tail s + 1) mod capacity s;
                count := count s + 1 |}).
Proof.
  intros HC Hinv Hnf. pose proof (fifo_inv_tail _ _ HC Hinv) as Ht.
  destruct Hinv as (Hlen & Hcap & Hh & Hc & _).
  unfold valid_capacity in HC. rewrite modulus_value in HC.
  destruct s as [b cap h t c]; simpl in *; subst cap.
  unfold_macros. crank. reflexivity.
Qed.

Lemma fifo_force_push_exact CAP s v :
  valid_capacity CAP -> fifo_inv CAP s ->
  trb_fifo_force_push v s =
    Done (tt, {| buf := <[Z.to_nat (tail s) := v]> (buf s);
                 capacity := capacity s;
                 head := if count s =? capacity s
                         then (head s + 1) mod capacity s else head s;
                 tail := (tail s + 1) mod capacity s;
                 count := if count s =? capacity s
                          then count s else count s + 1 |}).
Proof.
  intros HC Hinv. pose proof (fifo_inv_tail _ _ HC Hinv) as Ht.
  destruct Hinv as (Hlen & Hcap & Hh & Hc & _).
  unfold valid_capacity in HC. rewrite modulus_value in HC.
  destruct s as [b cap h t c]; simpl in *; subst cap.
  unfold_macros.
  destruct (Z.eqb_spec c CAP) as [Hfull | Hnf]; crank; reflexivity.
Qed.

Lemma fifo_pop_empty s out :
  count s = 0 -> trb_fifo_pop out s = Done ((-1, out), s).
Proof. intros H. unfold_macros. rewrite H. reflexivity. Qed.

Lemma fifo_peek_empty s out :
  count s = 0 -> trb_fifo_peek out s = Done ((-1, out), s).
Proof. intros H. unfold_macros. rewrite H. reflexivity. Qed.

Lemma lifo_pop_empty s out :
  count s = 0 -> trb_lifo_pop out s = Done ((-1, out), s).
Proof. intros H. unfold_macros. rewrite H. reflexivity. Qed.

Lemma lifo_peek_empty s out :
  count s = 0 -> trb_lifo_peek out s = Done ((-1, out), s).
Proof. intros H. unfold_macros. rewrite H. reflexivity. Qed.

Lemma fifo_peek_ok s out x :
  count s <> 0 -> 0 <= head s < Z.of_nat (length (buf s)) ->
  buf s !! Z.to_nat (head s) = Some x ->
  trb_fifo_peek out s = Done ((0, x), s).
Proof.
  intros Hne Hh Hx. destruct s as [b cap h t c]; simpl in *.
  unfold_macros. crank. rewrite Hx. reflexivity.
Qed.

Lemma fifo_pop_ok CAP s out :
  valid_capacity CAP -> fifo_inv CAP s -> count s <> 0 ->
  exists x, buf s !! Z.to_nat (head s) = Some x /\
    trb_fifo_pop out s =
      Done ((0, x), {| buf := buf s;
                       capacity := capacity s;
                       head := (head s + 1) mod capacity s;
                       tail := tail s;
                       count := count s - 1 |}).
Proof.
  intros HC (Hlen & Hcap & Hh & Hc & _) Hne.
  unfold valid_capacity in HC. rewrite modulus_value in HC.
  destruct (lookup_lt_is_Some_2 (buf s) (Z.to_nat (head s))) as [x Hx];
    [lia |].
  exists x. split; [exact Hx |].
  destruct s as [b cap h t c]; simpl in *; subst cap.
  unfold_macros. crank. rewrite Hx. crank. reflexivity.
Qed.

Lemma lifo_push_ok CAP s v :
  valid_capacity CAP -> lifo_inv CAP s -> count s <> capacity s ->
  trb_lifo_push v s =
    Done (0, {| buf := <[Z.to_nat (head s) := v]> (buf s);
                capacity := capacity s;
                head := head s + 1;
                tail := tail s;
                count := count s + 1 |}).
Proof.
  intros HC (Hlen & Hcap & Hh & Hc) Hnf.
  unfold valid_capacity in HC. rewrite modulus_value in HC.
  destruct s as [b cap h t c]; simpl in *; subst cap h.
  unfold_macros. crank. reflexivity.
Qed.

Lemma lifo_peek_ok s out x :
  count s <> 0 -> 1 <= head s <= Z.of_nat (length (buf s)) ->
  head s < SizeT.modulus ->
  buf s !! Z.to_nat (head s - 1) = Some x ->
  trb_lifo_peek out s = Done ((0, x), s).
Proof.
  intros Hne Hh Hm Hx. rewrite modulus_value in Hm.
  destruct s as [b cap h t c]; simpl in *.
  unfold_macros. crank. rewrite Hx. reflexivity.
Qed.

Lemma lifo_pop_ok CAP s out :
  valid_capacity CAP -> lifo_inv CAP s -> count s <> 0 ->
  exists x, buf s !! Z.to_nat (head s - 1) = Some x /\
    trb_lifo_pop out s =
      Done ((0, x), {| buf := buf s;
                       capacity := capacity s;
                       head := head s - 1;
                       tail := tail s;
                       count := count s - 1 |}).
Proof.
  intros HC (Hlen & Hcap & Hh & Hc) Hne.
  unfold valid_capacity in HC. rewrite modulus_value in HC.
  destruct (lookup_lt_is_Some_2 (buf s) (Z.to_nat (head s - 1))) as [x Hx];
    [lia |].
  exists x. split; [exact Hx |].
  destruct s as [b cap h t c]; simpl in *; subst cap h.
  unfold_macros. crank. rewrite Hx. crank. reflexivity.
Qed.

Lemma flush_exact s :
  trb_flush s = Done (tt, {| buf := buf s; capacity := capacity s;
                             head := 0; tail := 0; count := 0 |}).
Proof. reflexivity. Qed.
End Calls.

(** ** The buffer as a queue *)

Section Queue.
Context {T : Type}.
Implicit Types (s : trb T) (v out zero : T).

Lemma init_shape zero CAP :
  valid_capacity CAP ->
  length (buf (TRB_RB_DEFINE zero CAP)) = Z.to_nat CAP /\
  capacity (TRB_RB_DEFINE zero CAP) = CAP.
Proof.
  intros HC. simpl. rewrite length_replicate. split; [reflexivity |].
  apply wrap_small. unfold valid_capacity in HC. lia.
Qed.

Lemma init_fifo_inv zero CAP :
  valid_capacity CAP -> fifo_inv CAP (TRB_RB_DEFINE zero CAP).
Proof.
  intros HC. destruct (init_shape zero CAP HC) as [Hlen Hcap].
  unfold valid_capacity in HC.
  repeat split; try assumption; simpl; lia.
Qed.

Lemma fifo_contents_size CAP s :
  valid_capacity CAP -> fifo_inv CAP s ->
  QueueSpec.size (fifo_contents s) = count s.
Proof.
  intros HC (Hlen & Hcap & Hh & Hc & _).
  unfold QueueSpec.size, fifo_contents.
  rewrite ring_read_length; lia.
Qed.

Lemma fifo_contents_empty s : count s = 0 -> fifo_contents s = [].
Proof. intros H. unfold fifo_contents. rewrite H. reflexivity. Qed.

Lemma fifo_contents_cons CAP s :
  valid_capacity CAP -> fifo_inv CAP s -> count s <> 0 ->
  exists x, buf s !! Z.to_nat (head s) = Some x /\
    fifo_contents s =
      x :: ring_read (buf s) (capacity s) ((head s + 1) mod capacity s)
                     (Z.to_nat (count s - 1)).
Proof.
  intros HC (Hlen & Hcap & Hh & Hc & _) Hne.
  destruct (lookup_lt_is_Some_2 (buf s) (Z.to_nat (head s))) as [x Hx];
    [lia |].
  exists x. split; [exact Hx |].
  unfold fifo_contents.
  replace (Z.to_nat (count s)) with (S (Z.to_nat (count s - 1))) by lia.
  simpl. rewrite Hx. reflexivity.
Qed.

(** A push on a buffer that is not full appends to the content. *)
Lemma fifo_push_contents CAP s v :
  valid_capacity CAP -> fifo_inv CAP s -> count s <> capacity s ->
  let s' := {| buf := <[Z.to_nat (tail s) := v]> (buf s);
               capacity := capacity s;
               head := head s;
               tail := (tail s + 1) mod capacity s;
               count := count s + 1 |} in
  fifo_contents s' = fifo_contents s ++ [v] /\ fifo_inv CAP s'.
Proof.
  intros HC (Hlen & Hcap & Hh & Hc & Ht) Hnf s'.
  unfold valid_capacity in HC. split.
  - unfold fifo_contents, s'. simpl.
    replace (Z.to_nat (count s + 1)) with (S (Z.to_nat (count s))) by lia.
    rewrite Ht, Hcap.
    replace (count s) with (Z.of_nat (Z.to_nat (count s))) at 1 by lia.
    apply ring_read_insert_snoc; lia.
  - unfold s'. repeat split; simpl; try lia.
    + rewrite length_insert. exact Hlen.
    + rewrite Ht, Hcap, Zplus_mod_idemp_l. f_equal. lia.
Qed.

(** A force-push on a full buffer retires the oldest element. *)
Lemma fifo_force_push_full_contents CAP s v :
  valid_capacity CAP -> fifo_inv CAP s -> count s = capacity s ->
  let s' := {| buf := <[Z.to_nat (tail s) := v]> (buf s);
               capacity := capacity s;
               head := (head s + 1) mod capacity s;
               tail := (tail s + 1) mod capacity s;
               count := count s |} in
  fifo_contents s' = drop 1 (fifo_contents s) ++ [v] /\ fifo_inv CAP s'.
Proof.
  intros HC Hinv Hfull s'.
  assert (Hne : count s <> 0).
  { destruct Hinv as (_ & Hcap & _). unfold valid_capacity in HC. lia. }
  destruct (fifo_contents_cons CAP s HC Hinv Hne) as (x & Hx & Hq).
  destruct Hinv as (Hlen & Hcap & Hh & Hc & Ht).
  unfold valid_capacity in HC. split.
  - rewrite Hq. simpl drop. unfold fifo_contents, s'. simpl.
    rewrite Hcap in *.
    replace (Z.to_nat (count s)) with (S (Z.to_nat (count s - 1))) by lia.
    replace (tail s)
      with (((head s + 1) mod CAP + Z.of_nat (Z.to_nat (count s - 1))) mod CAP).
    + apply ring_read_insert_snoc; try lia.
      apply Z.mod_pos_bound. lia.
    + rewrite mod_succ_shift by lia. rewrite Ht. f_equal. lia.
  - unfold s'. rewrite Hcap in *. repeat split; simpl; try lia.
    + rewrite length_insert. exact Hlen.
    + apply Z.mod_pos_bound. lia.
    + apply Z.mod_pos_bound. lia.
    + rewrite Ht, !Zplus_mod_idemp_l. f_equal. lia.
Qed.

(** A pop on a buffer that is not empty removes the oldest element. *)
Lemma fifo_pop_contents CAP s :
  valid_capacity CAP -> fifo_inv CAP s -> count s <> 0 ->
  let s' := {| buf := buf s;
               capacity := capacity s;
               head := (head s + 1) mod capacity s;
               tail := tail s;
               count := count s - 1 |} in
  exists x, buf s !! Z.to_nat (head s) = Some x /\
    fifo_contents s = x :: fifo_contents s' /\ fifo_inv CAP s'.
Proof.
  intros HC Hinv Hne s'.
  destruct (fifo_contents_cons CAP s HC Hinv Hne) as (x & Hx & Hq).
  destruct Hinv as (Hlen & Hcap & Hh & Hc & Ht).
  unfold valid_capacity in HC.
  exists x. split; [exact Hx |]. split; [exact Hq |].
  unfold s'. rewrite Hcap in *. repeat split; simpl; try lia.
  - apply Z.mod_pos_bound. lia.
  - apply Z.mod_pos_bound. lia.
  - rewrite Ht, Zplus_mod_idemp_l. f_equal. lia.
Qed.
End Queue.

Lemma bind_done {T A B} (m : M T A) (k : A -> M T B) s a s' :
  m s = Done (a, s') -> bind m k s = k a s'.
Proof. intros H. unfold bind. rewrite H. reflexivity. Qed.

Section QueueRefinement.
Context {T : Type}.
Implicit Types (s : trb T) (v out zero : T).

(** Every call of the queue discipline is defined on a state satisfying
    the queue invariant, keeps the invariant, and replies as the bounded
    queue holding the logical content does. *)
Lemma fifo_exec_refines CAP s o out :
  valid_capacity CAP -> fifo_inv CAP s -> fifo_mode o = true ->
  exists r s',
    exec o out s = Done (r, s') /\
    QueueSpec.step CAP o out (fifo_contents s) = Some (r, fifo_contents s') /\
    fifo_inv CAP s'.
Proof.
  intros HC Hinv Hm.
  pose proof (fifo_contents_size CAP s HC Hinv) as Hsz.
  assert (Hcap : capacity s = CAP) by apply Hinv.
  destruct o as [v | v | | | v | | | | qu]; try discriminate Hm;
    unfold QueueSpec.step.
  - (* fifo_push *)
    rewrite Hsz. destruct (Z.eqb_spec (count s) CAP) as [Hfull | Hnf].
    + exists (Full, out), s. repeat split; try apply Hinv.
      unfold exec. erewrite bind_done by (apply fifo_push_full; lia).
      reflexivity.
    + rewrite <- Hcap in Hnf.
      destruct (fifo_push_contents CAP s v HC Hinv Hnf) as [Hq Hinv'].
      eexists (Success, out), _. split; [| split; [| exact Hinv']].
      * unfold exec.
        erewrite bind_done by (apply (fifo_push_ok CAP); assumption).
        reflexivity.
      * rewrite Hq. reflexivity.
  - (* fifo_force_push *)
    rewrite Hsz. unfold exec.
    erewrite bind_done by (apply (fifo_force_push_exact CAP); assumption).
    rewrite Hcap.
    destruct (Z.eqb_spec (count s) CAP) as [Hfull | Hnf].
    + rewrite <- Hcap in Hfull.
      destruct (fifo_force_push_full_contents CAP s v HC Hinv Hfull)
        as [Hq Hinv'].
      rewrite Hcap in Hq, Hinv'.
      eexists _, _. split; [reflexivity |]. split; [| exact Hinv'].
      rewrite Hq. reflexivity.
    + rewrite <- Hcap in Hnf.
      destruct (fifo_push_contents CAP s v HC Hinv Hnf) as [Hq Hinv'].
      rewrite Hcap in Hq, Hinv'.
      eexists _, _. split; [reflexivity |]. split; [| exact Hinv'].
      rewrite Hq. reflexivity.
  - (* fifo_pop *)
    destruct (Z.eq_dec (count s) 0) as [Hempty | Hne].
    + exists (Empty, out), s.
      split; [| split; [| exact Hinv]].
      * unfold exec.
        erewrite bind_done by (apply fifo_pop_empty; exact Hempty).
        reflexivity.
      * rewrite (fifo_contents_empty s Hempty). reflexivity.
    + destruct (fifo_pop_contents CAP s HC Hinv Hne) as (x & Hx & Hq & Hinv').
      destruct (fifo_pop_ok CAP s out HC Hinv Hne) as (x' & Hx' & Hpop).
      assert (x' = x) by congruence. subst x'.
      rewrite Hq.
      eexists (Success, x), _. split; [| split; [reflexivity | exact Hinv']].
      unfold exec. erewrite bind_done by exact Hpop. reflexivity.
  - (* fifo_peek *)
    destruct (Z.eq_dec (count s) 0) as [Hempty | Hne].
    + exists (Empty, out), s.
      split; [| split; [| exact Hinv]].
      * unfold exec.
        erewrite bind_done by (apply fifo_peek_empty; exact Hempty).
        reflexivity.
      * rewrite (fifo_contents_empty s Hempty). reflexivity.
    + destruct (fifo_contents_cons CAP s HC Hinv Hne) as (x & Hx & Hq).
      assert (Hpk : trb_fifo_peek out s = Done ((0, x), s)).
      { apply fifo_peek_ok; try assumption.
        destruct Hinv as (Hlen & _ & Hh & _). lia. }
      rewrite Hq. exists (Success, x), s.
      split; [| split; [rewrite <- Hq; reflexivity | exact Hinv]].
      unfold exec. erewrite bind_done by exact Hpk. reflexivity.
  - (* flush *)
    eexists (Void, out), _. split; [reflexivity |].
    split; [reflexivity |].
    destruct Hinv as (Hlen & _ & Hh & Hc & _). unfold valid_capacity in HC.
    repeat split; simpl; try assumption; lia.
  - (* queries *)
    exists (Value (QueueSpec.answer CAP qu (fifo_contents s)), out), s.
    split; [| split; [reflexivity | exact Hinv]].
    destruct Hinv as (Hlen & _ & Hh & Hc & _). unfold valid_capacity in HC.
    rewrite modulus_value in HC.
    destruct qu; unfold QueueSpec.answer; rewrite ?Hsz;
      unfold_macros; rewrite ?Hcap; try reflexivity.
    rewrite wrap_small by (rewrite modulus_value; lia). reflexivity.
Qed.

(** Sequences of calls: the trace of the buffer is the trace of the queue. *)
Lemma fifo_run_refines CAP ops : forall s out,
  valid_capacity CAP -> fifo_inv CAP s -> forallb fifo_mode ops = true ->
  exists tr s',
    run ops out s = Done (tr, s') /\
    QueueSpec.steps CAP ops out (fifo_contents s)
      = Some (tr, fifo_contents s') /\
    fifo_inv CAP s'.
Proof.
  induction ops as [| o ops IH]; intros s out HC Hinv Hall.
  - exists [], s. split; [reflexivity | split; [reflexivity | exact Hinv]].
  - simpl in Hall. apply andb_prop in Hall. destruct Hall as [Ho Hops].
    destruct (fifo_exec_refines CAP s o out HC Hinv Ho)
      as (r & s1 & Hex & Hst & Hinv1).
    destruct (IH s1 r.2 HC Hinv1 Hops) as (tr & s2 & Hrun & Hsts & Hinv2).
    exists (r :: tr), s2. split; [| split; [| exact Hinv2]].
    + simpl. erewrite bind_done by exact Hex.
      erewrite bind_done by exact Hrun. reflexivity.
    + simpl. rewrite Hst, Hsts. reflexivity.
Qed.

Lemma reachable_fifo_inv zero CAP s :
  valid_capacity CAP -> reachable fifo_mode zero CAP s -> fifo_inv CAP s.
Proof.
  intros HC Hr. induction Hr as [| s o out r s' Hr IH Ho Hex].
  - apply init_fifo_inv. exact HC.
  - destruct (fifo_exec_refines CAP s o out HC IH Ho)
      as (r1 & s1 & Hex1 & _ & Hinv1).
    congruence.
Qed.
End QueueRefinement.

(** ** The buffer as a stack *)

Section StackRefinement.
Context {T : Type}.
Implicit Types (s : trb T) (v out zero : T).

Lemma init_lifo_inv zero CAP :
  valid_capacity CAP -> lifo_inv CAP (TRB_RB_DEFINE zero CAP).
Proof.
  intros HC. destruct (init_shape zero CAP HC) as [Hlen Hcap].
  unfold valid_capacity in HC.
  repeat split; try assumption; simpl; lia.
Qed.

Lemma lifo_contents_size CAP s :
  lifo_inv CAP s -> StackSpec.size (lifo_contents s) = count s.
Proof.
  intros (Hlen & Hcap & Hh & Hc).
  unfold StackSpec.size, lifo_contents.
  rewrite stack_read_length; lia.
Qed.

Lemma lifo_contents_empty s : count s = 0 -> lifo_contents s = [].
Proof. intros H. unfold lifo_contents. rewrite H. reflexivity. Qed.

Lemma lifo_contents_cons CAP s :
  lifo_inv CAP s -> count s <> 0 ->
  exists x, buf s !! Z.to_nat (head s - 1) = Some x /\
    lifo_contents s =
      x :: stack_read (buf s) (head s - 1) (Z.to_nat (count s - 1)).
Proof.
  intros (Hlen & Hcap & Hh & Hc) Hne.
  destruct (lookup_lt_is_Some_2 (buf s) (Z.to_nat (head s - 1))) as [x Hx];
    [lia |].
  exists x. split; [exact Hx |].
  unfold lifo_contents.
  replace (Z.to_nat (count s)) with (S (Z.to_nat (count s - 1))) by lia.
  simpl. rewrite Hx. reflexivity.
Qed.

(** A push on a stack that is not full puts the value on top. *)
Lemma lifo_push_contents CAP s v :
  lifo_inv CAP s -> count s <> capacity s ->
  let s' := {| buf := <[Z.to_nat (head s) := v]> (buf s);
               capacity := capacity s;
               head := head s + 1;
               tail := tail s;
               count := count s + 1 |} in
  lifo_contents s' = v :: lifo_contents s /\ lifo_inv CAP s'.
Proof.
  intros (Hlen & Hcap & Hh & Hc) Hnf s'. split.
  - unfold lifo_contents, s'. simpl buf. simpl head. simpl count.
    replace (Z.to_nat (count s + 1)) with (S (Z.to_nat (count s))) by lia.
    simpl stack_read.
    replace (head s + 1 - 1) with (head s) by lia.
    rewrite list_lookup_insert_eq by lia.
    f_equal. apply stack_read_insert_above; lia.
  - unfold s'. repeat split; simpl; try lia.
    rewrite length_insert. exact Hlen.
Qed.

(** A pop on a stack that is not empty removes the top. *)
Lemma lifo_pop_contents CAP s :
  lifo_inv CAP s -> count s <> 0 ->
  let s' := {| buf := buf s;
               capacity := capacity s;
               head := head s - 1;
               tail := tail s;
               count := count s - 1 |} in
  exists x, buf s !! Z.to_nat (head s - 1) = Some x /\
    lifo_contents s = x :: lifo_contents s' /\ lifo_inv CAP s'.
Proof.
  intros Hinv Hne s'.
  destruct (lifo_contents_cons CAP s Hinv Hne) as (x & Hx & Hq).
  destruct Hinv as (Hlen & Hcap & Hh & Hc).
  exists x. split; [exact Hx |]. split; [exact Hq |].
  unfold s'. repeat split; simpl; lia.
Qed.

(** Every call of the stack discipline is defined on a state satisfying
    the stack invariant, keeps the invariant, and replies as the bounded
    stack holding the logical content does. *)
Lemma lifo_exec_refines CAP s o out :
  valid_capacity CAP -> lifo_inv CAP s -> lifo_mode o = true ->
  exists r s',
    exec o out s = Done (r, s') /\
    StackSpec.step CAP o out (lifo_contents s) = Some (r, lifo_contents s') /\
    lifo_inv CAP s'.
Proof.
  intros HC Hinv Hm.
  pose proof (lifo_contents_size CAP s Hinv) as Hsz.
  assert (Hcap : capacity s = CAP) by apply Hinv.
  destruct o as [v | v | | | v | | | | qu]; try discriminate Hm;
    unfold StackSpec.step.
  - (* lifo_push *)
    rewrite Hsz. destruct (Z.eqb_spec (count s) CAP) as [Hfull | Hnf].
    + exists (Full, out), s. split; [| split; [reflexivity | exact Hinv]].
      unfold exec. erewrite bind_done by (apply lifo_push_full; lia).
      reflexivity.
    + rewrite <- Hcap in Hnf.
      destruct (lifo_push_contents CAP s v Hinv Hnf) as [Hq Hinv'].
      eexists (Success, out), _. split; [| split; [| exact Hinv']].
      * unfold exec.
        erewrite bind_done by (apply (lifo_push_ok CAP); assumption).
        reflexivity.
      * rewrite Hq. reflexivity.
  - (* lifo_pop *)
    destruct (Z.eq_dec (count s) 0) as [Hempty | Hne].
    + exists (Empty, out), s.
      split; [| split; [| exact Hinv]].
      * unfold exec.
        erewrite bind_done by (apply lifo_pop_empty; exact Hempty).
        reflexivity.
      * rewrite (lifo_contents_empty s Hempty). reflexivity.
    + destruct (lifo_pop_contents CAP s Hinv Hne) as (x & Hx & Hq & Hinv').
      destruct (lifo_pop_ok CAP s out HC Hinv Hne) as (x' & Hx' & Hpop).
      assert (x' = x) by congruence. subst x'.
      rewrite Hq.
      eexists (Success, x), _. split; [| split; [reflexivity | exact Hinv']].
      unfold exec. erewrite bind_done by exact Hpop. reflexivity.
  - (* lifo_peek *)
    destruct (Z.eq_dec (count s) 0) as [Hempty | Hne].
    + exists (Empty, out), s.
      split; [| split; [| exact Hinv]].
      * unfold exec.
        erewrite bind_done by (apply lifo_peek_empty; exact Hempty).
        reflexivity.
      * rewrite (lifo_contents_empty s Hempty). reflexivity.
    + destruct (lifo_contents_cons CAP s Hinv Hne) as (x & Hx & Hq).
      assert (Hpk : trb_lifo_peek out s = Done ((0, x), s)).
      { destruct Hinv as (Hlen & _ & Hh & Hc).
        unfold valid_capacity in HC.
        apply lifo_peek_ok; try assumption; lia. }
      rewrite Hq. exists (Success, x), s.
      split; [| split; [rewrite <- Hq; reflexivity | exact Hinv]].
      unfold exec. erewrite bind_done by exact Hpk. reflexivity.
  - (* flush *)
    eexists (Void, out), _. split; [reflexivity |].
    split; [reflexivity |].
    destruct Hinv as (Hlen & _ & Hh & Hc). unfold valid_capacity in HC.
    repeat split; simpl; try assumption; lia.
  - (* queries *)
    exists (Value (StackSpec.answer CAP qu (lifo_contents s)), out), s.
    split; [| split; [reflexivity | exact Hinv]].
    destruct Hinv as (Hlen & _ & Hh & Hc). unfold valid_capacity in HC.
    rewrite modulus_value in HC.
    destruct qu; unfold StackSpec.answer; rewrite ?Hsz;
      unfold_macros; rewrite ?Hcap; try reflexivity.
    rewrite wrap_small by (rewrite modulus_value; lia). reflexivity.
Qed.

Lemma lifo_run_refines CAP ops : forall s out,
  valid_capacity CAP -> lifo_inv CAP s -> forallb lifo_mode ops = true ->
  exists tr s',
    run ops out s = Done (tr, s') /\
    StackSpec.steps CAP ops out (lifo_contents s)
      = Some (tr, lifo_contents s') /\
    lifo_inv CAP s'.
Proof.
  induction ops as [| o ops IH]; intros s out HC Hinv Hall.
  - exists [], s. split; [reflexivity | split; [reflexivity | exact Hinv]].
  - simpl in Hall. apply andb_prop in Hall. destruct Hall as [Ho Hops].
    destruct (lifo_exec_refines CAP s o out HC Hinv Ho)
      as (r & s1 & Hex & Hst & Hinv1).
    destruct (IH s1 r.2 HC Hinv1 Hops) as (tr & s2 & Hrun & Hsts & Hinv2).
    exists (r :: tr), s2. split; [| split; [| exact Hinv2]].
    + simpl. erewrite bind_done by exact Hex.
      erewrite bind_done by exact Hrun. reflexivity.
    + simpl. rewrite Hst, Hsts. reflexivity.
Qed.

Lemma reachable_lifo_inv zero CAP s :
  valid_capacity CAP -> reachable lifo_mode zero CAP s -> lifo_inv CAP s.
Proof.
  intros HC Hr. induction Hr as [| s o out r s' Hr IH Ho Hex].
  - apply init_lifo_inv. exact HC.
  - destruct (lifo_exec_refines CAP s o out HC IH Ho)
      as (r1 & s1 & Hex1 & _ & Hinv1).
    congruence.
Qed.
End StackRefinement.

(** ** Arbitrary interleavings *)

Ltac split_guards H :=
  repeat (simpl in H;
          match type of H with
          | context [in_bounds ?i ?s] => destruct (in_bounds i s) eqn:?
          | context [?a =? ?b] => destruct (Z.eqb_spec a b)
          | context [?l !! ?i] => destruct (l !! i) eqn:?
          end);
  simpl in H; try discriminate H.

Section Interleavings.
Context {T : Type}.
Implicit Types (s : trb T) (v out zero : T).

Lemma init_shape_inv zero CAP :
  valid_capacity CAP -> shape_inv CAP (TRB_RB_DEFINE zero CAP).
Proof.
  intros HC. destruct (init_shape zero CAP HC) as [Hlen Hcap].
  unfold valid_capacity in HC.
  repeat split; try assumption; simpl; lia.
Qed.

Lemma exec_shape_inv CAP s o out r s' :
  valid_capacity CAP -> shape_inv CAP s ->
  exec o out s = Done (r, s') -> shape_inv CAP s'.
Proof.
  intros HC (Hlen & Hcap & Hc & Hh) Hex.
  unfold valid_capacity in HC. rewrite modulus_value in HC.
  destruct s as [b cap h t c]. simpl in Hlen, Hcap, Hc, Hh. subst cap.
  assert (HCm : forall z, 0 <= z mod CAP < CAP)
    by (intros z; apply Z.mod_pos_bound; lia).
  destruct o as [v | v | | | v | | | | qu].
  all: unfold_macros_in Hex; try destruct qu; split_guards Hex;
    inversion Hex; subst; clear Hex; bool_facts;
    unfold shape_inv; simpl; rewrite ?length_insert;
    try (destruct (Z.eq_dec h 0) as [-> | Hh0];
         [ try rewrite wrap_underflow in *; rewrite ?modulus_value in *
         | try rewrite (wrap_small (h - 1)) in *
             by (rewrite modulus_value; lia) ]);
    rewrite ?wrap_small by (rewrite modulus_value; lia);
    repeat split; try assumption; try apply HCm; try lia;
    match goal with
    | |- ?z mod _ <= _ => pose proof (HCm z); lia
    end.
Qed.

(** Whatever the client calls, the array keeps its size, [capacity] its
    value, [count] stays within [0, capacity] and [head] within
    [0, capacity], as long as every call made so far was defined. *)
Lemma reachable_shape_inv allowed zero CAP s :
  valid_capacity CAP -> reachable allowed zero CAP s -> shape_inv CAP s.
Proof.
  intros HC Hr. induction Hr as [| s o out r s' Hr IH Ho Hex].
  - apply init_shape_inv. exact HC.
  - exact (exec_shape_inv CAP s o out r s' HC IH Hex).
Qed.

(** The states a run passes through are the reachable ones. *)
Lemma run_reachable allowed zero CAP ops : forall s out tr s',
  reachable allowed zero CAP s ->
  forallb allowed ops = true ->
  run ops out s = Done (tr, s') ->
  reachable allowed zero CAP s'.
Proof.
  induction ops as [| o ops IH]; intros s out tr s' Hr Hall Hrun.
  - simpl in Hrun. inversion Hrun. subst. exact Hr.
  - simpl in Hall. apply andb_prop in Hall. destruct Hall as [Ho Hops].
    simpl in Hrun. unfold bind in Hrun at 1.
    destruct (exec o out s) as [[r s1] |] eqn:Hex; [| discriminate].
    unfold bind in Hrun.
    destruct (run ops r.2 s1) as [[tr1 s2] |] eqn:Hrun1; [| discriminate].
    inversion Hrun. subst.
    apply (IH s1 r.2 tr1 s' ); try assumption.
    exact (reach_step allowed zero CAP s o out r s1 Hr Ho Hex).
Qed.
End Interleavings.

(** * The claims *)

Section Ordering.
Context {T : Type}.
Implicit Types (s : trb T) (v out zero : T).
#[local] Arguments Z.eqb : simpl never.

(** C1 (FIFO ordering).  For a buffer declared with a capacity of at least
    three and used as a queue, on every empty state the three pushes of
    [v1], [v2], [v3] succeed and the three pops that follow deliver [v1],
    [v2], [v3] in that order.  More generally every sequence of queue
    calls from the declaration is defined and has the trace of the bounded
    queue of the specification, whose pop delivers the oldest element
    pushed and not yet popped or retired by a force-push; the final
    content of the buffer is the content of that queue. *)
Theorem fifo_ordering zero CAP :
  valid_capacity CAP ->
  (3 <= CAP ->
   forall s out v1 v2 v3,
     reachable fifo_mode zero CAP s -> count s = 0 ->
     exists s',
       run [FifoPush v1; FifoPush v2; FifoPush v3; FifoPop; FifoPop; FifoPop]
           out s
       = Done ([(Success, out); (Success, out); (Success, out);
                (Success, v1); (Success, v2); (Success, v3)], s')) /\
  (forall ops out,
     forallb fifo_mode ops = true ->
     exists tr s',
       run ops out (TRB_RB_DEFINE zero CAP) = Done (tr, s') /\
       QueueSpec.steps CAP ops out [] = Some (tr, fifo_contents s')).
Proof.
  intros HC. split.
  - intros H3 s out v1 v2 v3 Hr Hempty.
    pose proof (reachable_fifo_inv zero CAP s HC Hr) as Hinv.
    destruct (fifo_run_refines CAP
                [FifoPush v1; FifoPush v2; FifoPush v3;
                 FifoPop; FifoPop; FifoPop] s out HC Hinv eq_refl)
      as (tr & s' & Hrun & Hsteps & _).
    exists s'. rewrite Hrun. f_equal. f_equal.
    rewrite (fifo_contents_empty s Hempty) in Hsteps.
    unfold QueueSpec.steps, QueueSpec.step, QueueSpec.size in Hsteps.
    repeat (simpl in Hsteps;
            match type of Hsteps with
            | context [?a =? CAP] =>
                rewrite (proj2 (Z.eqb_neq a CAP)) in Hsteps by (simpl; lia)
            end).
    simpl in Hsteps. congruence.
  - intros ops out Hall.
    destruct (fifo_run_refines CAP ops (TRB_RB_DEFINE zero CAP) out HC
                (init_fifo_inv zero CAP HC) Hall)
      as (tr & s' & Hrun & Hsteps & _).
    exists tr, s'. split; [exact Hrun |]. exact Hsteps.
Qed.

(** C2 (LIFO ordering).  For a buffer declared with a capacity of at least
    three and used as a stack, on every empty state the three pushes of
    [v1], [v2], [v3] succeed and the three pops that follow deliver [v3],
    [v2], [v1] in that order.  More generally every sequence of stack
    calls from the declaration is defined and has the trace of the bounded
    stack of the specification, whose pop delivers the most recently
    pushed element not yet popped. *)
Theorem lifo_ordering zero CAP :
  valid_capacity CAP ->
  (3 <= CAP ->
   forall s out v1 v2 v3,
     reachable lifo_mode zero CAP s -> count s = 0 ->
     exists s',
       run [LifoPush v1; LifoPush v2; LifoPush v3; LifoPop; LifoPop; LifoPop]
           out s
       = Done ([(Success, out); (Success, out); (Success, out);
                (Success, v3); (Success, v2); (Success, v1)], s')) /\
  (forall ops out,
     forallb lifo_mode ops = true ->
     exists tr s',
       run ops out (TRB_RB_DEFINE zero CAP) = Done (tr, s') /\
       StackSpec.steps CAP ops out [] = Some (tr, lifo_contents s')).
Proof.
  intros HC. split.
  - intros H3 s out v1 v2 v3 Hr Hempty.
    pose proof (reachable_lifo_inv zero CAP s HC Hr) as Hinv.
    destruct (lifo_run_refines CAP
                [LifoPush v1; LifoPush v2; LifoPush v3;
                 LifoPop; LifoPop; LifoPop] s out HC Hinv eq_refl)
      as (tr & s' & Hrun & Hsteps & _).
    exists s'. rewrite Hrun. f_equal. f_equal.
    rewrite (lifo_contents_empty s Hempty) in Hsteps.
    unfold StackSpec.steps, StackSpec.step, StackSpec.size in Hsteps.
    repeat (simpl in Hsteps;
            match type of Hsteps with
            | context [?a =? CAP] =>
                rewrite (proj2 (Z.eqb_neq a CAP)) in Hsteps by (simpl; lia)
            end).
    simpl in Hsteps. congruence.
  - intros ops out Hall.
    destruct (lifo_run_refines CAP ops (TRB_RB_DEFINE zero CAP) out HC
                (init_lifo_inv zero CAP HC) Hall)
      as (tr & s' & Hrun & Hsteps & _).
    exists tr, s'. split; [exact Hrun |]. exact Hsteps.
Qed.
End Ordering.

Lemma valid_capacity_3 : valid_capacity 3.
Proof. unfold valid_capacity. rewrite modulus_value. lia. Qed.

Lemma fifo_ordering_witness :
  (exists s',
     run [FifoPush Example.a; FifoPush Example.b; FifoPush Example.c;
          FifoPop; FifoPop; FifoPop] (0, 0) Example.test
     = Done ([(Success, (0, 0)); (Success, (0, 0)); (Success, (0, 0));
              (Success, Example.a); (Success, Example.b);
              (Success, Example.c)], s')) /\
  (exists tr s',
     run Example.fifo_part (0, 0) Example.test = Done (tr, s') /\
     QueueSpec.steps 3 Example.fifo_part (0, 0) []
     = Some (tr, fifo_contents s')).
Proof.
  destruct (fifo_ordering (0, 0) 3 valid_capacity_3) as [Hex Hgen].
  split.
  - apply Hex; [lia | apply reach_init | reflexivity].
  - apply Hgen. reflexivity.
Defined.

Lemma lifo_ordering_witness :
  (exists s',
     run [LifoPush Example.a; LifoPush Example.b; LifoPush Example.c;
          LifoPop; LifoPop; LifoPop] (0, 0) Example.test
     = Done ([(Success, (0, 0)); (Success, (0, 0)); (Success, (0, 0));
              (Success, Example.c); (Success, Example.b);
              (Success, Example.a)], s')) /\
  (exists tr s',
     run Example.lifo_part (0, 0) Example.test = Done (tr, s') /\
     StackSpec.steps 3 Example.lifo_part (0, 0) []
     = Some (tr, lifo_contents s')).
Proof.
  destruct (lifo_ordering (0, 0) 3 valid_capacity_3) as [Hex Hgen].
  split.
  - apply Hex; [lia | apply reach_init | reflexivity].
  - apply Hgen. reflexivity.
Defined.

Section Calls_on_reachable_states.
Context {T : Type}.
Implicit Types (s : trb T) (v out zero : T).

(** C3 (force-push).  On every state a buffer used as a queue can reach,
    [trb_fifo_force_push] is defined and has no failure result: it stores
    the value in slot [tail], which is a slot of the array, and moves
    [tail] to [(tail + 1) mod capacity]; when [count == capacity] held it
    also moves [head] to [(head + 1) mod capacity] and keeps [count], so
    that the content loses its oldest element, otherwise it adds one to
    [count] and the content only grows.  With capacity 3 and content
    [a; b; c] a force-push of [d] leaves content [b; c; d] and
    [count == 3]. *)
Theorem force_push_semantics zero CAP s v :
  valid_capacity CAP ->
  reachable fifo_mode zero CAP s ->
  let s' := {| buf := <[Z.to_nat (tail s) := v]> (buf s);
               capacity := capacity s;
               head := if count s =? capacity s
                       then (head s + 1) mod capacity s else head s;
               tail := (tail s + 1) mod capacity s;
               count := if count s =? capacity s
                        then count s else count s + 1 |} in
  trb_fifo_force_push v s = Done (tt, s') /\
  0 <= tail s < Z.of_nat (length (buf s)) /\
  buf s' !! Z.to_nat (tail s) = Some v /\
  (count s = capacity s ->
   fifo_contents s' = drop 1 (fifo_contents s) ++ [v]) /\
  (count s <> capacity s -> fifo_contents s' = fifo_contents s ++ [v]) /\
  (forall a b c,
     CAP = 3 -> fifo_contents s = [a; b; c] ->
     fifo_contents s' = [b; c; v] /\ count s' = 3).
Proof.
  intros HC Hr s'.
  pose proof (reachable_fifo_inv zero CAP s HC Hr) as Hinv.
  pose proof (fifo_inv_tail CAP s HC Hinv) as Ht.
  pose proof (fifo_contents_size CAP s HC Hinv) as Hsz.
  assert (Hlen : length (buf s) = Z.to_nat CAP) by apply Hinv.
  assert (Hcap : capacity s = CAP) by apply Hinv.
  assert (Hfull : count s = capacity s ->
                  fifo_contents s' = drop 1 (fifo_contents s) ++ [v]).
  { intros Hf. unfold s'. rewrite (proj2 (Z.eqb_eq _ _) Hf).
    exact (proj1 (fifo_force_push_full_contents CAP s v HC Hinv Hf)). }
  split; [| split; [| split; [| split; [| split]]]].
  - apply (fifo_force_push_exact CAP); assumption.
  - lia.
  - unfold s'. simpl. apply list_lookup_insert_eq. lia.
  - exact Hfull.
  - intros Hnf. unfold s'.
    rewrite (proj2 (Z.eqb_neq _ _) Hnf).
    exact (proj1 (fifo_push_contents CAP s v HC Hinv Hnf)).
  - intros a b c HCAP Hq.
    assert (Hf : count s = capacity s).
    { rewrite <- Hsz, Hq, Hcap, HCAP. reflexivity. }
    split.
    + rewrite (Hfull Hf), Hq. reflexivity.
    + unfold s'. simpl. rewrite Hf, Z.eqb_refl. lia.
Qed.

(** C4, as amended (capacity invariant).  In any interleaving of the
    queue calls, the stack calls, flush and the queries, every state the
    buffer passes through while no call has indexed outside the array has
    [0 <= count <= capacity].  A sequence of queue calls only, and a
    sequence of stack calls only, never indexes outside the array: its
    run is defined and ends in such a state. *)
Theorem capacity_invariant zero CAP :
  valid_capacity CAP ->
  (forall s, reachable any_mode zero CAP s -> 0 <= count s <= capacity s) /\
  (forall ops out tr s',
     run ops out (TRB_RB_DEFINE zero CAP) = Done (tr, s') ->
     0 <= count s' <= capacity s') /\
  (forall ops out,
     forallb fifo_mode ops = true ->
     exists tr s',
       run ops out (TRB_RB_DEFINE zero CAP) = Done (tr, s') /\
       0 <= count s' <= capacity s') /\
  (forall ops out,
     forallb lifo_mode ops = true ->
     exists tr s',
       run ops out (TRB_RB_DEFINE zero CAP) = Done (tr, s') /\
       0 <= count s' <= capacity s').
Proof.
  intros HC.
  assert (Hreach : forall s, reachable any_mode zero CAP s ->
                             0 <= count s <= capacity s).
  { intros s Hr.
    destruct (reachable_shape_inv any_mode zero CAP s HC Hr)
      as (_ & Hcap & Hc & _).
    rewrite Hcap. exact Hc. }
  split; [exact Hreach |]. split; [| split].
  - intros ops out tr s' Hrun. apply Hreach.
    apply (run_reachable any_mode zero CAP ops
             (TRB_RB_DEFINE zero CAP) out tr s').
    + apply reach_init.
    + clear Hrun. induction ops; [reflexivity | assumption].
    + exact Hrun.
  - intros ops out Hall.
    destruct (fifo_run_refines CAP ops (TRB_RB_DEFINE zero CAP) out HC
                (init_fifo_inv zero CAP HC) Hall)
      as (tr & s' & Hrun & _ & (_ & Hcap & _ & Hc & _)).
    exists tr, s'. split; [exact Hrun |]. rewrite Hcap. exact Hc.
  - intros ops out Hall.
    destruct (lifo_run_refines CAP ops (TRB_RB_DEFINE zero CAP) out HC
                (init_lifo_inv zero CAP HC) Hall)
      as (tr & s' & Hrun & _ & (_ & Hcap & _ & Hc)).
    exists tr, s'. split; [exact Hrun |]. rewrite Hcap. exact Hc.
Qed.

(** C5 (full rejection).  On every state with [count == capacity],
    [trb_fifo_push] and [trb_lifo_push] return [-1] and leave the whole
    object as it was: the array, [head], [tail] and [count]. *)
Theorem full_rejection s v :
  count s = capacity s ->
  trb_fifo_push v s = Done (-1, s) /\
  trb_lifo_push v s = Done (-1, s) /\
  (forall out, exec (FifoPush v) out s = Done ((Full, out), s)) /\
  (forall out, exec (LifoPush v) out s = Done ((Full, out), s)).
Proof.
  intros Hfull.
  pose proof (fifo_push_full s v Hfull) as Hf.
  pose proof (lifo_push_full s v Hfull) as Hl.
  repeat split; try assumption; intros out; unfold exec.
  - erewrite bind_done by exact Hf. reflexivity.
  - erewrite bind_done by exact Hl. reflexivity.
Qed.

(** C6 (empty rejection).  On every state with [count == 0], each of
    [trb_fifo_pop], [trb_fifo_peek], [trb_lifo_pop] and [trb_lifo_peek]
    returns [-1], leaves the whole object as it was and does not write to
    the caller's [*VALUE_PTR]. *)
Theorem empty_rejection s out :
  count s = 0 ->
  trb_fifo_pop out s = Done ((-1, out), s) /\
  trb_fifo_peek out s = Done ((-1, out), s) /\
  trb_lifo_pop out s = Done ((-1, out), s) /\
  trb_lifo_peek out s = Done ((-1, out), s).
Proof.
  intros Hempty. repeat split.
  - apply fifo_pop_empty. exact Hempty.
  - apply fifo_peek_empty. exact Hempty.
  - apply lifo_pop_empty. exact Hempty.
  - apply lifo_peek_empty. exact Hempty.
Qed.
End Calls_on_reachable_states.

Section Flush_and_peek.
Context {T : Type}.
Implicit Types (s : trb T) (v out zero : T).

(** The first push on a state whose three indices are zero. *)
Lemma first_push CAP s v :
  valid_capacity CAP ->
  length (buf s) = Z.to_nat CAP -> capacity s = CAP ->
  head s = 0 -> tail s = 0 -> count s = 0 ->
  trb_fifo_push v s =
    Done (0, {| buf := <[O := v]> (buf s); capacity := capacity s;
                head := 0; tail := 1 mod capacity s; count := 1 |}) /\
  trb_lifo_push v s =
    Done (0, {| buf := <[O := v]> (buf s); capacity := capacity s;
                head := 1; tail := 0; count := 1 |}).
Proof.
  intros HC Hlen Hcap Hh Ht Hc.
  unfold valid_capacity in HC. rewrite modulus_value in HC.
  destruct s as [b cap h t c]. simpl in *. subst cap.
  split; unfold_macros; crank; subst; reflexivity.
Qed.

(** C7, as amended (flush).  On every state the buffer reaches while no
    call has indexed outside the array, [trb_flush] sets
    [head], [tail] and [count] to zero and leaves the array and
    [capacity] alone; flushing again changes nothing; and the push that
    follows a flush, like the first push after the declaration, stores
    its value in slot 0 and succeeds. *)
Theorem flush_resets zero CAP s :
  valid_capacity CAP ->
  reachable any_mode zero CAP s ->
  let f := {| buf := buf s; capacity := capacity s;
              head := 0; tail := 0; count := 0 |} in
  let fresh := TRB_RB_DEFINE zero CAP in
  trb_flush s = Done (tt, f) /\
  (do trb_flush then trb_flush) s = trb_flush s /\
  forall v,
    trb_fifo_push v f =
      Done (0, {| buf := <[O := v]> (buf s); capacity := capacity s;
                  head := 0; tail := 1 mod capacity s; count := 1 |}) /\
    trb_fifo_push v fresh =
      Done (0, {| buf := <[O := v]> (buf fresh); capacity := capacity fresh;
                  head := 0; tail := 1 mod capacity fresh; count := 1 |}) /\
    trb_lifo_push v f =
      Done (0, {| buf := <[O := v]> (buf s); capacity := capacity s;
                  head := 1; tail := 0; count := 1 |}) /\
    trb_lifo_push v fresh =
      Done (0, {| buf := <[O := v]> (buf fresh); capacity := capacity fresh;
                  head := 1; tail := 0; count := 1 |}) /\
    <[O := v]> (buf s) !! O = Some v /\
    <[O := v]> (buf fresh) !! O = Some v.
Proof.
  intros HC Hr f fresh.
  destruct (reachable_shape_inv any_mode zero CAP s HC Hr)
    as (Hlen & Hcap & _).
  destruct (init_shape zero CAP HC) as [Hlen0 Hcap0].
  assert (Hpos : (0 < Z.to_nat CAP)%nat)
    by (unfold valid_capacity in HC; lia).
  split; [reflexivity |]. split; [reflexivity |].
  intros v.
  destruct (first_push CAP f v HC Hlen Hcap eq_refl eq_refl eq_refl)
    as [Hf Hl].
  destruct (first_push CAP fresh v HC Hlen0 Hcap0 eq_refl eq_refl eq_refl)
    as [Hf0 Hl0].
  repeat split; try assumption.
  - apply list_lookup_insert_eq. lia.
  - apply list_lookup_insert_eq. fold fresh in Hlen0. lia.
Qed.

End Flush_and_peek.

Section Head.
Context {T : Type}.
Implicit Types (s : trb T) (v out zero : T).

Lemma forallb_take {A} (p : A -> bool) (l : list A) n :
  forallb p l = true -> forallb p (take n l) = true.
Proof.
  revert n. induction l as [| a l IH]; intros n H.
  - destruct n; reflexivity.
  - destruct n as [| n]; [reflexivity |].
    simpl in *. apply andb_prop in H. destruct H as [Ha Hl].
    rewrite Ha. simpl. apply IH. exact Hl.
Qed.

(** C9, as amended (range of [head]).  From the declaration, while only
    queue calls (with flush and the queries) are made,
    [0 <= head < capacity] holds in every state; while only stack calls
    (with flush and the queries) are made, [head] stays in
    [0, capacity]; and in any interleaving [head] stays in
    [0, capacity] as long as every call made so far was defined. *)
Theorem head_range zero CAP :
  valid_capacity CAP ->
  (forall s, reachable fifo_mode zero CAP s -> 0 <= head s < capacity s) /\
  (forall s, reachable lifo_mode zero CAP s -> 0 <= head s <= capacity s) /\
  (forall s, reachable any_mode zero CAP s -> 0 <= head s <= capacity s).
Proof.
  intros HC. split; [| split].
  - intros s Hr.
    destruct (reachable_fifo_inv zero CAP s HC Hr) as (_ & Hcap & Hh & _).
    rewrite Hcap. exact Hh.
  - intros s Hr.
    destruct (reachable_lifo_inv zero CAP s HC Hr) as (_ & Hcap & Hh & Hc).
    rewrite Hcap, Hh. exact Hc.
  - intros s Hr.
    destruct (reachable_shape_inv any_mode zero CAP s HC Hr)
      as (_ & Hcap & _ & Hh).
    rewrite Hcap. exact Hh.
Qed.

(** C10 (safety of the stack discipline).  For every sequence made of
    [trb_lifo_push], [trb_lifo_pop], [trb_lifo_peek], [trb_flush] and the
    queries, after every call of the sequence the run from the
    declaration is defined, so no access left the array, and
    [head == count] with [0 <= head <= capacity]; hence a push on a buffer
    that is not full writes slot [head], a slot of the array, and a pop or
    peek on a buffer that is not empty reads slot [head - 1] with
    [head >= 1], computed without wrap-around. *)
Theorem lifo_safety zero CAP ops out n :
  valid_capacity CAP ->
  forallb lifo_mode ops = true ->
  exists tr s',
    run (take n ops) out (TRB_RB_DEFINE zero CAP) = Done (tr, s') /\
    head s' = count s' /\
    0 <= head s' <= capacity s' /\
    (count s' <> capacity s' -> in_bounds (head s') s' = true) /\
    (count s' <> 0 ->
     1 <= head s' /\
     SizeT.wrap (head s' - 1) = head s' - 1 /\
     in_bounds (SizeT.wrap (head s' - 1)) s' = true).
Proof.
  intros HC Hall.
  destruct (lifo_run_refines CAP (take n ops) (TRB_RB_DEFINE zero CAP) out HC
              (init_lifo_inv zero CAP HC) (forallb_take _ _ n Hall))
    as (tr & s' & Hrun & _ & (Hlen & Hcap & Hh & Hc)).
  unfold valid_capacity in HC. rewrite modulus_value in HC.
  exists tr, s'. split; [exact Hrun |]. split; [exact Hh |].
  split; [lia |]. split.
  - intros Hnf. apply in_bounds_true. lia.
  - intros Hne. split; [lia |].
    rewrite wrap_small by (rewrite modulus_value; lia).
    split; [reflexivity |]. apply in_bounds_true. lia.
Qed.
End Head.

(** C9, as stated, fails: after the three stack pushes of [example.c] on
    the buffer of capacity 3, a queue push is rejected and leaves
    [head == capacity]. *)
Lemma head_range_counterexample :
  run [LifoPush Example.a; LifoPush Example.b; LifoPush Example.c;
       FifoPush Example.a] (0, 0) Example.test
  = Done ([(Success, (0, 0)); (Success, (0, 0)); (Success, (0, 0));
           (Full, (0, 0))], Example.stacked) /\
  fifo_mode (FifoPush Example.a) = true /\
  ~ (0 <= head Example.stacked < capacity Example.stacked).
Proof.
  split; [reflexivity |]. split; [reflexivity |].
  simpl. lia.
Qed.

(** ** The claims on the buffer of [example.c] *)

Lemma full_reachable (allowed : op Example.user_type_t -> bool) :
  allowed (FifoPush Example.a) = true ->
  allowed (FifoPush Example.b) = true ->
  allowed (FifoPush Example.c) = true ->
  reachable allowed (0, 0) 3 Example.full.
Proof.
  intros Ha Hb Hc.
  apply (run_reachable allowed (0, 0) 3
           [FifoPush Example.a; FifoPush Example.b; FifoPush Example.c]
           Example.test (0, 0)
           [(Success, (0, 0)); (Success, (0, 0)); (Success, (0, 0))]).
  - apply reach_init.
  - simpl. rewrite Ha, Hb, Hc. reflexivity.
  - reflexivity.
Qed.

Lemma force_push_semantics_witness :
  trb_fifo_force_push Example.b Example.full
  = Done (tt, {| buf := [Example.b; Example.b; Example.c]; capacity := 3;
                 head := 1; tail := 1; count := 3 |}) /\
  fifo_contents {| buf := [Example.b; Example.b; Example.c]; capacity := 3;
                   head := 1; tail := 1; count := 3 |}
  = [Example.b; Example.c; Example.b].
Proof.
  destruct (force_push_semantics (0, 0) 3 Example.full Example.b
              valid_capacity_3
              (full_reachable fifo_mode eq_refl eq_refl eq_refl))
    as (Hdone & _ & _ & _ & _ & Hex).
  split; [exact Hdone |].
  exact (proj1 (Hex Example.a Example.b Example.c eq_refl eq_refl)).
Defined.

Lemma stacked_then_rejected :
  reachable any_mode (0, 0) 3 Example.stacked.
Proof.
  apply (run_reachable any_mode (0, 0) 3
           [LifoPush Example.a; LifoPush Example.b; LifoPush Example.c;
            FifoPush Example.a]
           Example.test (0, 0)
           [(Success, (0, 0)); (Success, (0, 0)); (Success, (0, 0));
            (Full, (0, 0))]).
  - apply reach_init.
  - reflexivity.
  - reflexivity.
Qed.

Lemma mixed_reachable : reachable any_mode (0, 0) 3 Example.mixed.
Proof.
  apply (run_reachable any_mode (0, 0) 3 Example.mixed_part
           Example.test (0, 0)
           [(Success, (0, 0)); (Success, (0, 0)); (Success, (0, 0));
            (Success, Example.a); (Success, Example.b);
            (Success, Example.b)]).
  - apply reach_init.
  - reflexivity.
  - reflexivity.
Qed.

Lemma capacity_invariant_witness :
  0 <= count Example.stacked <= capacity Example.stacked /\
  0 <= count Example.mixed <= capacity Example.mixed /\
  (exists tr s',
     run Example.fifo_part (0, 0) Example.test = Done (tr, s') /\
     0 <= count s' <= capacity s').
Proof.
  destruct (capacity_invariant (0, 0) 3 valid_capacity_3)
    as (Hreach & _ & Hq & _).
  split; [| split].
  - apply Hreach. exact stacked_then_rejected.
  - apply Hreach. exact mixed_reachable.
  - apply Hq. reflexivity.
Defined.

(** C4, as stated, fails: after [mixed_part] on the buffer of capacity 3
    every call so far was defined, [count] is 2 and [head] is 3; the
    next stack push passes its only guard, [count != capacity], and
    copies its value to [buf[3]], outside the array.  The run has no
    defined state after it. *)
Lemma capacity_invariant_counterexample :
  run Example.mixed_part (0, 0) Example.test
  = Done ([(Success, (0, 0)); (Success, (0, 0)); (Success, (0, 0));
           (Success, Example.a); (Success, Example.b);
           (Success, Example.b)], Example.mixed) /\
  count Example.mixed <> capacity Example.mixed /\
  in_bounds (head Example.mixed) Example.mixed = false /\
  trb_lifo_push Example.a Example.mixed = Undefined /\
  ~ (exists tr s',
       run (Example.mixed_part ++ [LifoPush Example.a]) (0, 0) Example.test
       = Done (tr, s') /\
       0 <= count s' <= capacity s').
Proof.
  split; [reflexivity |]. split; [discriminate |].
  split; [reflexivity |]. split; [reflexivity |].
  intros (tr & s' & Hrun & _). vm_compute in Hrun. discriminate Hrun.
Qed.

(** C7, as stated, fails: [trb_flush] assigns [head], [tail] and
    [count] and nothing else, so it does not undo a write past the
    array.  The sequence above followed by a flush and a push has no
    defined run; and on an object whose [capacity] field holds 0, as a
    zero value copied past the array leaves it where the field follows
    the array, the push after the flush is rejected and writes no
    slot. *)
Lemma flush_resets_counterexample :
  ~ (exists tr s',
       run (Example.mixed_part
              ++ [LifoPush (0, 0); Flush; FifoPush Example.a])
           (0, 0) Example.test
       = Done (tr, s') /\
       buf s' !! O = Some Example.a) /\
  (let spoilt := {| buf := [Example.a; Example.b; Example.a];
                    capacity := 0; head := 4; tail := 0; count := 3 |} in
   run [Flush; FifoPush Example.a] (0, 0) spoilt
   = Done ([(Void, (0, 0)); (Full, (0, 0))],
           {| buf := [Example.a; Example.b; Example.a];
              capacity := 0; head := 0; tail := 0; count := 0 |})).
Proof.
  split; [| reflexivity].
  intros (tr & s' & Hrun & _). vm_compute in Hrun. discriminate Hrun.
Qed.

Lemma full_rejection_witness :
  trb_fifo_push Example.a Example.full = Done (-1, Example.full) /\
  trb_lifo_push Example.a Example.full = Done (-1, Example.full).
Proof.
  destruct (full_rejection Example.full Example.a eq_refl) as (Hf & Hl & _).
  split; assumption.
Defined.

Lemma empty_rejection_witness :
  trb_fifo_pop (0, 0) Example.test = Done ((-1, (0, 0)), Example.test) /\
  trb_lifo_peek (0, 0) Example.test = Done ((-1, (0, 0)), Example.test).
Proof.
  destruct (empty_rejection Example.test (0, 0) eq_refl) as (Hp & _ & _ & Hk).
  split; assumption.
Defined.

Lemma flush_resets_witness :
  trb_flush Example.mixed
  = Done (tt, {| buf := [Example.a; Example.b; Example.a]; capacity := 3;
                 head := 0; tail := 0; count := 0 |}).
Proof.
  exact (proj1 (flush_resets (0, 0) 3 Example.mixed valid_capacity_3
                  mixed_reachable)).
Defined.


Lemma head_range_witness :
  0 <= head Example.full < capacity Example.full.
Proof.
  apply (proj1 (head_range (0, 0) 3 valid_capacity_3)).
  exact (full_reachable fifo_mode eq_refl eq_refl eq_refl).
Defined.

Lemma lifo_safety_witness :
  exists tr s',
    run Example.lifo_part (0, 0) Example.test = Done (tr, s') /\
    head s' = count s'.
Proof.
  destruct (lifo_safety (0, 0) 3 Example.lifo_part (0, 0) 8%nat
              valid_capacity_3 eq_refl)
    as (tr & s' & Hrun & Hh & _).
  exists tr, s'. split; [exact Hrun | exact Hh].
Defined.

(** * Further properties of the macros *)

(** ** Runs of the bounded queue and stack *)

Section Spec_runs.
Context {T : Type}.
Implicit Types (q st vs : list T) (v out : T).
#[local] Arguments Z.eqb : simpl never.

Lemma queue_steps_fifo_only N ops : forall out q tr q',
  QueueSpec.steps N ops out q = Some (tr, q') ->
  forallb fifo_mode ops = true.
Proof.
  induction ops as [| o ops IH]; intros out q tr q' H; [reflexivity |].
  simpl in H.
  destruct (QueueSpec.step N o out q) as [[r q1] |] eqn:Hs; [| discriminate].
  destruct (QueueSpec.steps N ops r.2 q1) as [[tr1 q2] |] eqn:Hss;
    [| discriminate].
  simpl. apply andb_true_intro. split.
  - destruct o; try reflexivity; discriminate Hs.
  - exact (IH _ _ _ _ Hss).
Qed.

Lemma stack_steps_lifo_only N ops : forall out st tr st',
  StackSpec.steps N ops out st = Some (tr, st') ->
  forallb lifo_mode ops = true.
Proof.
  induction ops as [| o ops IH]; intros out st tr st' H; [reflexivity |].
  simpl in H.
  destruct (StackSpec.step N o out st) as [[r st1] |] eqn:Hs; [| discriminate].
  destruct (StackSpec.steps N ops r.2 st1) as [[tr1 st2] |] eqn:Hss;
    [| discriminate].
  simpl. apply andb_true_intro. split.
  - destruct o; try reflexivity; discriminate Hs.
  - exact (IH _ _ _ _ Hss).
Qed.

(** What the queue answers decides what the buffer does. *)
Lemma fifo_run_by_spec CAP ops (s : trb T) out tr q :
  valid_capacity CAP -> fifo_inv CAP s ->
  QueueSpec.steps CAP ops out (fifo_contents s) = Some (tr, q) ->
  exists s', run ops out s = Done (tr, s') /\
             fifo_contents s' = q /\ fifo_inv CAP s'.
Proof.
  intros HC Hinv Hq.
  destruct (fifo_run_refines CAP ops s out HC Hinv
              (queue_steps_fifo_only _ _ _ _ _ _ Hq))
    as (tr' & s' & Hrun & Hsteps & Hinv').
  rewrite Hq in Hsteps. inversion Hsteps. subst.
  exists s'. split; [exact Hrun |]. split; [reflexivity | exact Hinv'].
Qed.

Lemma lifo_run_by_spec CAP ops (s : trb T) out tr st :
  valid_capacity CAP -> lifo_inv CAP s ->
  StackSpec.steps CAP ops out (lifo_contents s) = Some (tr, st) ->
  exists s', run ops out s = Done (tr, s') /\
             lifo_contents s' = st /\ lifo_inv CAP s'.
Proof.
  intros HC Hinv Hq.
  destruct (lifo_run_refines CAP ops s out HC Hinv
              (stack_steps_lifo_only _ _ _ _ _ _ Hq))
    as (tr' & s' & Hrun & Hsteps & Hinv').
  rewrite Hq in Hsteps. inversion Hsteps. subst.
  exists s'. split; [exact Hrun |]. split; [reflexivity | exact Hinv'].
Qed.

(** Force-pushing a stream keeps its newest [N] elements. *)
Lemma queue_force_stream N vs : forall out q,
  0 < N -> QueueSpec.size q <= N ->
  QueueSpec.steps N (map FifoForcePush vs) out q
  = Some (map (fun _ => (Void, out)) vs,
          drop (length (q ++ vs) - Z.to_nat N) (q ++ vs)).
Proof.
  unfold QueueSpec.size.
  induction vs as [| v vs IH]; intros out q HN Hq.
  - simpl. rewrite app_nil_r.
    replace (length q - Z.to_nat N)%nat with O by lia. reflexivity.
  - simpl. unfold QueueSpec.size.
    destruct (Z.eqb_spec (Z.of_nat (length q)) N) as [Hfull | Hnf].
    + destruct q as [| x q0]; [simpl in Hfull; lia |].
      simpl in Hfull. simpl drop at 1. rewrite drop_0.
      rewrite IH by (try rewrite length_app; simpl; lia).
      simpl. do 2 f_equal.
      rewrite <- app_assoc. simpl.
      rewrite !length_app. simpl.
      replace (S (length q0 + S (length vs)) - Z.to_nat N)%nat
        with (S (length q0 + S (length vs) - Z.to_nat N)) by lia.
      reflexivity.
    + rewrite IH by (try rewrite length_app; simpl; lia).
      simpl. do 2 f_equal. rewrite <- app_assoc. reflexivity.
Qed.

(** Pushing a stream accepts what fits and rejects the rest. *)
Lemma queue_fill N vs : forall out q,
  QueueSpec.size q <= N ->
  QueueSpec.steps N (map FifoPush vs) out q
  = Some (map (fun _ => (Success, out)) (take (Z.to_nat N - length q) vs)
            ++ map (fun _ => (Full, out)) (drop (Z.to_nat N - length q) vs),
          q ++ take (Z.to_nat N - length q) vs).
Proof.
  unfold QueueSpec.size.
  induction vs as [| v vs IH]; intros out q Hq.
  - simpl. rewrite take_nil, drop_nil. simpl. rewrite app_nil_r. reflexivity.
  - simpl. unfold QueueSpec.size.
    destruct (Z.eqb_spec (Z.of_nat (length q)) N) as [Hfull | Hnf].
    + rewrite IH by lia. simpl.
      replace (Z.to_nat N - length q)%nat with O by lia.
      rewrite !take_0, !drop_0, app_nil_r. reflexivity.
    + rewrite IH by (rewrite length_app; simpl; lia). simpl.
      replace (Z.to_nat N - length q)%nat
        with (S (Z.to_nat N - length (q ++ [v]))%nat)
        by (rewrite length_app; simpl; lia).
      simpl. rewrite <- app_assoc. reflexivity.
Qed.

(** Popping as many times as there are elements delivers them all. *)
Lemma queue_drain N q : forall out,
  QueueSpec.steps N (replicate (length q) FifoPop) out q
  = Some (map (fun x => (Success, x)) q, []).
Proof.
  induction q as [| x q IH]; intros out; [reflexivity |].
  simpl. rewrite IH. reflexivity.
Qed.

Lemma stack_fill N vs : forall out st,
  StackSpec.size st <= N ->
  StackSpec.steps N (map LifoPush vs) out st
  = Some (map (fun _ => (Success, out)) (take (Z.to_nat N - length st) vs)
            ++ map (fun _ => (Full, out)) (drop (Z.to_nat N - length st) vs),
          reverse (take (Z.to_nat N - length st) vs) ++ st).
Proof.
  unfold StackSpec.size.
  induction vs as [| v vs IH]; intros out st Hq.
  - simpl. rewrite take_nil, drop_nil. reflexivity.
  - simpl. unfold StackSpec.size.
    destruct (Z.eqb_spec (Z.of_nat (length st)) N) as [Hfull | Hnf].
    + rewrite IH by lia. simpl.
      replace (Z.to_nat N - length st)%nat with O by lia.
      rewrite !take_0, !drop_0. reflexivity.
    + rewrite IH by (simpl; lia). simpl.
      replace (Z.to_nat N - length st)%nat
        with (S (Z.to_nat N - S (length st))%nat) by lia.
      simpl. rewrite reverse_cons, <- app_assoc. reflexivity.
Qed.

Lemma stack_drain N st : forall out,
  StackSpec.steps N (replicate (length st) LifoPop) out st
  = Some (map (fun x => (Success, x)) st, []).
Proof.
  induction st as [| x st IH]; intros out; [reflexivity |].
  simpl. rewrite IH. reflexivity.
Qed.
End Spec_runs.

(** ** Queries, indices and the two disciplines *)

Section Queries_and_indices.
Context {T : Type}.
Implicit Types (s : trb T) (v out zero : T).

(** X1.  The queries on every state the buffer can reach: [trb_capacity] is
    the declared [CAPACITY], [trb_remaining] is [CAPACITY - count]
    computed without wrap-around, so that size and remaining add up to
    the capacity, [trb_is_full] holds exactly when nothing remains, the
    buffer is never empty and full at once, the array keeps its declared
    length, and no query changes the object. *)
Theorem queries_agree zero CAP s :
  valid_capacity CAP ->
  reachable any_mode zero CAP s ->
  trb_capacity s = Done (CAP, s) /\
  trb_size s = Done (count s, s) /\
  trb_remaining s = Done (CAP - count s, s) /\
  0 <= CAP - count s <= CAP /\
  trb_is_empty s = Done (count s =? 0, s) /\
  trb_is_full s = Done (CAP - count s =? 0, s) /\
  ~ (count s = 0 /\ count s = CAP) /\
  length (buf s) = Z.to_nat CAP.
Proof.
  intros HC Hr.
  destruct (reachable_shape_inv any_mode zero CAP s HC Hr)
    as (Hlen & Hcap & Hc & _).
  unfold valid_capacity in HC. rewrite modulus_value in HC.
  destruct s as [b cap h t c]. simpl in *. subst cap.
  repeat split; try lia; unfold_macros; try reflexivity.
  - rewrite wrap_small by (rewrite modulus_value; lia). reflexivity.
  - do 2 f_equal.
    destruct (Z.eqb_spec c CAP), (Z.eqb_spec (CAP - c) 0); (reflexivity || lia).
Qed.

(** X2.  On every state of a buffer used as a queue, [tail] is [count] slots
    after [head] modulo the capacity and is an index of the array; the
    two indices coincide exactly when the buffer is empty or full, which
    is why [count] is kept. *)
Theorem tail_head_relation zero CAP s :
  valid_capacity CAP ->
  reachable fifo_mode zero CAP s ->
  tail s = (head s + count s) mod capacity s /\
  0 <= tail s < capacity s /\
  (head s = tail s <-> count s = 0 \/ count s = capacity s).
Proof.
  intros HC Hr.
  pose proof (reachable_fifo_inv zero CAP s HC Hr) as Hinv.
  pose proof (fifo_inv_tail CAP s HC Hinv) as Ht.
  destruct Hinv as (_ & Hcap & Hh & Hc & Htl).
  unfold valid_capacity in HC. rewrite Hcap.
  split; [exact Htl |]. split; [exact Ht |].
  rewrite Htl, mod_once by lia.
  destruct (Z.ltb_spec (head s + count s) CAP); lia.
Qed.

(** X3.  While there is room, the force-push and the plain push of a queue do
    the same thing to the object. *)
Theorem force_push_with_room zero CAP s v :
  valid_capacity CAP ->
  reachable fifo_mode zero CAP s ->
  count s <> capacity s ->
  exists s',
    trb_fifo_push v s = Done (0, s') /\
    trb_fifo_force_push v s = Done (tt, s') /\
    count s' = count s + 1.
Proof.
  intros HC Hr Hnf.
  pose proof (reachable_fifo_inv zero CAP s HC Hr) as Hinv.
  eexists. split; [apply (fifo_push_ok CAP); assumption |].
  split; [| reflexivity].
  rewrite (fifo_force_push_exact CAP) by assumption.
  rewrite (proj2 (Z.eqb_neq _ _) Hnf). reflexivity.
Qed.

(** X4.  Calls of the other discipline can leave the array.  On a non-empty
    queue state with [head == 0] the stack pop and peek read slot
    [head - 1], which wraps to the largest [size_t]; on a full stack
    state the queue pop and peek read slot [head == capacity].  Neither
    access is defined.  The first case arises right after the first
    queue push on the declared buffer. *)
Theorem mixing_leaves_array zero CAP :
  valid_capacity CAP ->
  (forall s out,
     reachable fifo_mode zero CAP s -> head s = 0 -> count s <> 0 ->
     trb_lifo_pop out s = Undefined /\ trb_lifo_peek out s = Undefined) /\
  (forall s out,
     reachable lifo_mode zero CAP s -> count s = capacity s ->
     trb_fifo_pop out s = Undefined /\ trb_fifo_peek out s = Undefined) /\
  (forall v out,
     run [FifoPush v; LifoPop] out (TRB_RB_DEFINE zero CAP) = Undefined).
Proof.
  intros HC.
  assert (Hq : forall s out,
     reachable fifo_mode zero CAP s -> head s = 0 -> count s <> 0 ->
     trb_lifo_pop out s = Undefined /\ trb_lifo_peek out s = Undefined).
  { intros s out Hr Hh0 Hne.
    destruct (reachable_fifo_inv zero CAP s HC Hr) as (Hlen & _).
    unfold valid_capacity in HC. rewrite modulus_value in HC.
    destruct s as [b cap h t c]. simpl in *. subst h.
    assert (Hob : in_bounds (SizeT.wrap (0 - 1))
                    {| buf := b; capacity := cap; head := 0;
                       tail := t; count := c |} = false).
    { rewrite wrap_underflow, modulus_value. unfold in_bounds. simpl.
      apply Z.ltb_ge. lia. }
    split; unfold_macros; rewrite (proj2 (Z.eqb_neq _ _) Hne); simpl;
      rewrite Hob; reflexivity. }
  split; [exact Hq |]. split.
  - intros s out Hr Hfull.
    destruct (reachable_lifo_inv zero CAP s HC Hr) as (Hlen & Hcap & Hh & Hc).
    unfold valid_capacity in HC. rewrite modulus_value in HC.
    destruct s as [b cap h t c]. simpl in *. subst cap. subst c. subst h.
    assert (Hne : CAP <> 0) by lia.
    assert (Hob : in_bounds CAP
                    {| buf := b; capacity := CAP; head := CAP;
                       tail := t; count := CAP |} = false).
    { unfold in_bounds. simpl.
      apply andb_false_intro2. apply Z.ltb_ge. lia. }
    split; unfold_macros; rewrite (proj2 (Z.eqb_neq _ _) Hne); simpl;
      rewrite Hob; reflexivity.
  - intros v out.
    pose proof (init_fifo_inv zero CAP HC) as Hinv.
    assert (Hnf : count (TRB_RB_DEFINE zero CAP)
                  <> capacity (TRB_RB_DEFINE zero CAP)).
    { destruct Hinv as (_ & Hcap & _). rewrite Hcap. simpl.
      unfold valid_capacity in HC. lia. }
    pose proof (fifo_push_ok CAP _ v HC Hinv Hnf) as Hpush.
    set (s1 := {| buf := <[Z.to_nat (tail (TRB_RB_DEFINE zero CAP)) := v]>
                           (buf (TRB_RB_DEFINE zero CAP));
                  capacity := capacity (TRB_RB_DEFINE zero CAP);
                  head := head (TRB_RB_DEFINE zero CAP);
                  tail := (tail (TRB_RB_DEFINE zero CAP) + 1)
                          mod capacity (TRB_RB_DEFINE zero CAP);
                  count := count (TRB_RB_DEFINE zero CAP) + 1 |}) in *.
    assert (Hr1 : reachable fifo_mode zero CAP s1).
    { apply (reach_step fifo_mode zero CAP (TRB_RB_DEFINE zero CAP)
               (FifoPush v) out (Success, out) s1).
      - apply reach_init.
      - reflexivity.
      - unfold exec. erewrite bind_done by exact Hpush. reflexivity. }
    destruct (Hq s1 out Hr1 eq_refl) as [Hpop _]; [discriminate |].
    change (run [FifoPush v; LifoPop] out (TRB_RB_DEFINE zero CAP))
      with (bind (exec (FifoPush v) out)
              (fun r => bind (run [LifoPop] r.2) (fun tr => ret (r :: tr)))
              (TRB_RB_DEFINE zero CAP)).
    erewrite bind_done
      by (unfold exec; erewrite bind_done by exact Hpush; reflexivity).
    simpl. unfold bind at 1. unfold bind at 1. unfold bind at 1.
    rewrite Hpop. reflexivity.
Qed.
End Queries_and_indices.

(** ** How calls compose *)

Section Composition.
Context {T : Type}.
Implicit Types (s : trb T) (v out zero : T) (vs : list T).
#[local] Arguments Z.eqb : simpl never.

(** X5.  Round trip.  On an empty queue a push followed by a pop gives the
    pushed value back and leaves the queue empty.  On any stack that is
    not full a push followed by a pop gives the pushed value back and
    restores [head], [count] and the content. *)
Theorem push_pop_round_trip zero CAP :
  valid_capacity CAP ->
  (forall s out v,
     reachable fifo_mode zero CAP s -> count s = 0 ->
     exists s',
       run [FifoPush v; FifoPop] out s
       = Done ([(Success, out); (Success, v)], s') /\
       count s' = 0) /\
  (forall s out v,
     reachable lifo_mode zero CAP s -> count s <> capacity s ->
     exists s',
       run [LifoPush v; LifoPop] out s
       = Done ([(Success, out); (Success, v)], s') /\
       head s' = head s /\ count s' = count s /\
       lifo_contents s' = lifo_contents s).
Proof.
  intros HC. split.
  - intros s out v Hr Hempty.
    pose proof (reachable_fifo_inv zero CAP s HC Hr) as Hinv.
    destruct (fifo_run_by_spec CAP [FifoPush v; FifoPop] s out
                [(Success, out); (Success, v)] [] HC Hinv)
      as (s' & Hrun & Hq & Hinv').
    { rewrite (fifo_contents_empty s Hempty). simpl.
      unfold QueueSpec.size.
      rewrite (proj2 (Z.eqb_neq (Z.of_nat (length (@nil T))) CAP))
        by (unfold valid_capacity in HC; simpl; lia).
      reflexivity. }
    exists s'. split; [exact Hrun |].
    rewrite <- (fifo_contents_size CAP s' HC Hinv'), Hq. reflexivity.
  - intros s out v Hr Hnf.
    pose proof (reachable_lifo_inv zero CAP s HC Hr) as Hinv.
    pose proof (lifo_contents_size CAP s Hinv) as Hsz.
    assert (Hcap : capacity s = CAP) by apply Hinv.
    destruct (lifo_run_by_spec CAP [LifoPush v; LifoPop] s out
                [(Success, out); (Success, v)] (lifo_contents s) HC Hinv)
      as (s' & Hrun & Hq & Hinv').
    { simpl. rewrite Hsz.
      rewrite (proj2 (Z.eqb_neq (count s) CAP)) by lia. reflexivity. }
    pose proof (lifo_contents_size CAP s' Hinv') as Hsz'.
    rewrite Hq, Hsz in Hsz'.
    exists s'. split; [exact Hrun |].
    destruct Hinv as (_ & _ & Hh & _). destruct Hinv' as (_ & _ & Hh' & _).
    repeat split; try assumption; lia.
Qed.

(** X6.  A peek announces the pop that follows: in either discipline the two
    calls give the same status and leave the same value in the caller's
    variable, be the buffer empty or not. *)
Theorem peek_then_pop zero CAP :
  valid_capacity CAP ->
  (forall s out,
     reachable fifo_mode zero CAP s ->
     exists r s', run [FifoPeek; FifoPop] out s = Done ([r; r], s')) /\
  (forall s out,
     reachable lifo_mode zero CAP s ->
     exists r s', run [LifoPeek; LifoPop] out s = Done ([r; r], s')).
Proof.
  intros HC. split.
  - intros s out Hr.
    pose proof (reachable_fifo_inv zero CAP s HC Hr) as Hinv.
    destruct (fifo_contents s) as [| x q] eqn:Hq.
    + destruct (fifo_run_by_spec CAP [FifoPeek; FifoPop] s out
                  [(Empty, out); (Empty, out)] [] HC Hinv)
        as (s' & Hrun & _); [rewrite Hq; reflexivity |].
      exists (Empty, out), s'. exact Hrun.
    + destruct (fifo_run_by_spec CAP [FifoPeek; FifoPop] s out
                  [(Success, x); (Success, x)] q HC Hinv)
        as (s' & Hrun & _); [rewrite Hq; reflexivity |].
      exists (Success, x), s'. exact Hrun.
  - intros s out Hr.
    pose proof (reachable_lifo_inv zero CAP s HC Hr) as Hinv.
    destruct (lifo_contents s) as [| x q] eqn:Hq.
    + destruct (lifo_run_by_spec CAP [LifoPeek; LifoPop] s out
                  [(Empty, out); (Empty, out)] [] HC Hinv)
        as (s' & Hrun & _); [rewrite Hq; reflexivity |].
      exists (Empty, out), s'. exact Hrun.
    + destruct (lifo_run_by_spec CAP [LifoPeek; LifoPop] s out
                  [(Success, x); (Success, x)] q HC Hinv)
        as (s' & Hrun & _); [rewrite Hq; reflexivity |].
      exists (Success, x), s'. exact Hrun.
Qed.

(** X7.  Force-pushing a stream into a queue never fails and leaves the
    newest [CAPACITY] elements of the old content followed by the
    stream; [count] saturates at the capacity. *)
Theorem force_push_stream zero CAP s vs out :
  valid_capacity CAP ->
  reachable fifo_mode zero CAP s ->
  exists s',
    run (map FifoForcePush vs) out s
    = Done (map (fun _ => (Void, out)) vs, s') /\
    fifo_contents s'
    = drop (length (fifo_contents s ++ vs) - Z.to_nat CAP)
           (fifo_contents s ++ vs) /\
    count s' = Z.min CAP (count s + Z.of_nat (length vs)).
Proof.
  intros HC Hr.
  pose proof (reachable_fifo_inv zero CAP s HC Hr) as Hinv.
  pose proof (fifo_contents_size CAP s HC Hinv) as Hsz.
  assert (Hc : 0 <= count s <= CAP) by apply Hinv.
  destruct (fifo_run_by_spec CAP (map FifoForcePush vs) s out _ _ HC Hinv
              (queue_force_stream CAP vs out (fifo_contents s)
                 (proj1 HC) ltac:(lia)))
    as (s' & Hrun & Hq & Hinv').
  exists s'. split; [exact Hrun |]. split; [exact Hq |].
  rewrite <- (fifo_contents_size CAP s' HC Hinv'), Hq.
  unfold QueueSpec.size in *. rewrite length_drop, length_app. lia.
Qed.

(** X8.  Pushing a stream: a queue accepts the values that fit in the
    remaining room, in order behind its content, and rejects all later
    ones; a stack accepts the same values, the last accepted one on top. *)
Theorem push_stream zero CAP vs out :
  valid_capacity CAP ->
  (forall s,
     reachable fifo_mode zero CAP s ->
     let k := Z.to_nat (capacity s - count s) in
     exists s',
       run (map FifoPush vs) out s
       = Done (map (fun _ => (Success, out)) (take k vs)
                 ++ map (fun _ => (Full, out)) (drop k vs), s') /\
       fifo_contents s' = fifo_contents s ++ take k vs) /\
  (forall s,
     reachable lifo_mode zero CAP s ->
     let k := Z.to_nat (capacity s - count s) in
     exists s',
       run (map LifoPush vs) out s
       = Done (map (fun _ => (Success, out)) (take k vs)
                 ++ map (fun _ => (Full, out)) (drop k vs), s') /\
       lifo_contents s' = reverse (take k vs) ++ lifo_contents s).
Proof.
  intros HC. split.
  - intros s Hr k.
    pose proof (reachable_fifo_inv zero CAP s HC Hr) as Hinv.
    pose proof (fifo_contents_size CAP s HC Hinv) as Hsz.
    assert (Hc : 0 <= count s <= CAP) by apply Hinv.
    assert (Hcap : capacity s = CAP) by apply Hinv.
    assert (Hk : k = (Z.to_nat CAP - length (fifo_contents s))%nat)
      by (unfold k, QueueSpec.size in *; lia).
    rewrite Hk.
    destruct (fifo_run_by_spec CAP (map FifoPush vs) s out _ _ HC Hinv
                (queue_fill CAP vs out (fifo_contents s) ltac:(lia)))
      as (s' & Hrun & Hq & _).
    exists s'. split; assumption.
  - intros s Hr k.
    pose proof (reachable_lifo_inv zero CAP s HC Hr) as Hinv.
    pose proof (lifo_contents_size CAP s Hinv) as Hsz.
    assert (Hc : 0 <= count s <= CAP) by apply Hinv.
    assert (Hcap : capacity s = CAP) by apply Hinv.
    assert (Hk : k = (Z.to_nat CAP - length (lifo_contents s))%nat)
      by (unfold k, StackSpec.size in *; lia).
    rewrite Hk.
    destruct (lifo_run_by_spec CAP (map LifoPush vs) s out _ _ HC Hinv
                (stack_fill CAP vs out (lifo_contents s) ltac:(lia)))
      as (s' & Hrun & Hq & _).
    exists s'. split; assumption.
Qed.

(** X9.  Draining: [count] pops deliver the whole content, oldest first for
    a queue and newest first for a stack, and leave the buffer empty. *)
Theorem drain_delivers_contents zero CAP out :
  valid_capacity CAP ->
  (forall s,
     reachable fifo_mode zero CAP s ->
     exists s',
       run (replicate (Z.to_nat (count s)) FifoPop) out s
       = Done (map (fun x => (Success, x)) (fifo_contents s), s') /\
       count s' = 0) /\
  (forall s,
     reachable lifo_mode zero CAP s ->
     exists s',
       run (replicate (Z.to_nat (count s)) LifoPop) out s
       = Done (map (fun x => (Success, x)) (lifo_contents s), s') /\
       count s' = 0).
Proof.
  intros HC. split.
  - intros s Hr.
    pose proof (reachable_fifo_inv zero CAP s HC Hr) as Hinv.
    pose proof (fifo_contents_size CAP s HC Hinv) as Hsz.
    replace (Z.to_nat (count s)) with (length (fifo_contents s))
      by (unfold QueueSpec.size in Hsz; lia).
    destruct (fifo_run_by_spec CAP _ s out _ _ HC Hinv
                (queue_drain CAP (fifo_contents s) out))
      as (s' & Hrun & Hq & Hinv').
    exists s'. split; [exact Hrun |].
    rewrite <- (fifo_contents_size CAP s' HC Hinv'), Hq. reflexivity.
  - intros s Hr.
    pose proof (reachable_lifo_inv zero CAP s HC Hr) as Hinv.
    pose proof (lifo_contents_size CAP s Hinv) as Hsz.
    replace (Z.to_nat (count s)) with (length (lifo_contents s))
      by (unfold StackSpec.size in Hsz; lia).
    destruct (lifo_run_by_spec CAP _ s out _ _ HC Hinv
                (stack_drain CAP (lifo_contents s) out))
      as (s' & Hrun & Hq & Hinv').
    exists s'. split; [exact Hrun |].
    rewrite <- (lifo_contents_size CAP s' Hinv'), Hq. reflexivity.
Qed.
End Composition.

(** ** Flush and the layout of the content *)

Section Layout.
Context {T : Type}.
Implicit Types (s : trb T) (v out zero : T) (b : list T).

Lemma flushed_inv CAP s :
  valid_capacity CAP -> shape_inv CAP s ->
  let f := {| buf := buf s; capacity := capacity s;
              head := 0; tail := 0; count := 0 |} in
  fifo_inv CAP f /\ lifo_inv CAP f.
Proof.
  intros HC (Hlen & Hcap & _) f. unfold valid_capacity in HC.
  split; repeat split; simpl; try assumption; lia.
Qed.

(** X10.  A flush makes the buffer usable in either discipline again,
    whichever calls of the two disciplines came before, provided none of
    them indexed outside the array: after it every sequence of queue calls,
    and every sequence of stack calls, is defined and behaves as on an
    empty bounded queue or stack, so that no slot written before the
    flush is ever delivered. *)
Theorem flush_restarts zero CAP s :
  valid_capacity CAP ->
  reachable any_mode zero CAP s ->
  (forall ops out,
     forallb fifo_mode ops = true ->
     exists tr s',
       run (Flush :: ops) out s = Done ((Void, out) :: tr, s') /\
       QueueSpec.steps CAP ops out [] = Some (tr, fifo_contents s')) /\
  (forall ops out,
     forallb lifo_mode ops = true ->
     exists tr s',
       run (Flush :: ops) out s = Done ((Void, out) :: tr, s') /\
       StackSpec.steps CAP ops out [] = Some (tr, lifo_contents s')).
Proof.
  intros HC Hr.
  pose proof (reachable_shape_inv any_mode zero CAP s HC Hr) as Hshape.
  destruct (flushed_inv CAP s HC Hshape) as [Hq Hst].
  split.
  - intros ops out Hall.
    destruct (fifo_run_refines CAP ops _ out HC Hq Hall)
      as (tr & s' & Hrun & Hsteps & _).
    exists tr, s'. split; [| exact Hsteps].
    simpl. erewrite bind_done by reflexivity.
    erewrite bind_done by exact Hrun. reflexivity.
  - intros ops out Hall.
    destruct (lifo_run_refines CAP ops _ out HC Hst Hall)
      as (tr & s' & Hrun & Hsteps & _).
    exists tr, s'. split; [| exact Hsteps].
    simpl. erewrite bind_done by reflexivity.
    erewrite bind_done by exact Hrun. reflexivity.
Qed.

Lemma ring_read_lookup b cap n : forall start i,
  Z.of_nat (length b) = cap -> 0 <= start < cap -> (i < n)%nat ->
  ring_read b cap start n !! i
  = b !! Z.to_nat ((start + Z.of_nat i) mod cap).
Proof.
  induction n as [| n IH]; intros start i Hlen Hs Hi; [lia |].
  simpl.
  destruct (lookup_lt_is_Some_2 b (Z.to_nat start)) as [x Hx]; [lia |].
  rewrite Hx. destruct i as [| i].
  - simpl. rewrite Z.add_0_r, Z.mod_small by lia. symmetry. exact Hx.
  - simpl lookup. rewrite IH; try lia.
    + rewrite mod_succ_shift by lia. do 3 f_equal. lia.
    + apply Z.mod_pos_bound. lia.
Qed.

Lemma ring_read_rotate b cap start n :
  Z.of_nat (length b) = cap -> 0 <= start < cap -> (n <= length b)%nat ->
  ring_read b cap start n = take n (rotate (Z.to_nat start) b).
Proof.
  intros Hlen Hs Hn. apply list_eq. intros i.
  destruct (Nat.lt_ge_cases i n) as [Hi | Hi].
  - rewrite ring_read_lookup by assumption.
    rewrite lookup_take_lt by exact Hi.
    rewrite lookup_rotate_r by lia.
    unfold rotate_nat_add. do 3 f_equal; lia.
  - rewrite lookup_ge_None_2 by (rewrite ring_read_length; lia).
    symmetry. apply lookup_ge_None_2. rewrite length_take. lia.
Qed.

Lemma stack_read_take b n :
  (n <= length b)%nat ->
  stack_read b (Z.of_nat n) n = reverse (take n b).
Proof.
  induction n as [| n IH]; intros Hn; [reflexivity |].
  change (stack_read b (Z.of_nat (S n)) (S n))
    with (match b !! Z.to_nat (Z.of_nat (S n) - 1) with
          | Some x => x :: stack_read b (Z.of_nat (S n) - 1) n
          | None => []
          end).
  replace (Z.of_nat (S n) - 1) with (Z.of_nat n) by lia.
  rewrite Nat2Z.id.
  destruct (lookup_lt_is_Some_2 b n) as [x Hx]; [lia |].
  rewrite Hx, (take_S_r b n x Hx), reverse_snoc, IH by lia.
  reflexivity.
Qed.

Lemma lifo_exec_tail s o out r s' :
  lifo_mode o = true -> exec o out s = Done (r, s') ->
  tail s = 0 -> tail s' = 0.
Proof.
  intros Hm Hex Ht. destruct s as [b cap h t c]. simpl in Ht. subst t.
  destruct o as [v | v | | | v | | | | qu]; try discriminate Hm;
    unfold_macros_in Hex; try destruct qu; split_guards Hex;
    inversion Hex; reflexivity.
Qed.

(** X11.  Where the content lives.  In a buffer used as a queue the content
    is the first [count] slots of the array rotated to start at [head].
    In a buffer used as a stack it is the first [count] slots of the
    array, read backwards, and the stack calls never move [tail]. *)
Theorem contents_layout zero CAP :
  valid_capacity CAP ->
  (forall s,
     reachable fifo_mode zero CAP s ->
     fifo_contents s
     = take (Z.to_nat (count s)) (rotate (Z.to_nat (head s)) (buf s))) /\
  (forall s,
     reachable lifo_mode zero CAP s ->
     lifo_contents s = reverse (take (Z.to_nat (count s)) (buf s)) /\
     tail s = 0).
Proof.
  intros HC. split.
  - intros s Hr.
    destruct (reachable_fifo_inv zero CAP s HC Hr)
      as (Hlen & Hcap & Hh & Hc & _).
    unfold fifo_contents. apply ring_read_rotate; lia.
  - intros s Hr. split.
    + destruct (reachable_lifo_inv zero CAP s HC Hr)
        as (Hlen & Hcap & Hh & Hc).
      unfold lifo_contents. rewrite Hh.
      replace (count s) with (Z.of_nat (Z.to_nat (count s))) at 1 by lia.
      apply stack_read_take. lia.
    + induction Hr as [| s o out r s' Hr IH Ho Hex]; [reflexivity |].
      exact (lifo_exec_tail s o out r s' Ho Hex IH).
Qed.
End Layout.

(** ** What a call can touch *)

Section Frame.
Context {T : Type}.
Implicit Types (s : trb T) (v out : T).

(** X12.  On any state whatever, a defined call never changes [capacity] or
    the length of the array; the pops, the peeks, the flush and the
    queries leave every slot as it was (a popped value stays in its
    slot), the peeks and the queries leave the whole object as it was,
    and a push changes at most the one slot it is aimed at. *)
Theorem calls_frame s o out r s' :
  exec o out s = Done (r, s') ->
  capacity s' = capacity s /\
  length (buf s') = length (buf s) /\
  match o with
  | FifoPush v | FifoForcePush v =>
      buf s' = buf s \/ buf s' = <[Z.to_nat (tail s) := v]> (buf s)
  | LifoPush v =>
      buf s' = buf s \/ buf s' = <[Z.to_nat (head s) := v]> (buf s)
  | FifoPop | LifoPop | Flush => buf s' = buf s
  | FifoPeek | LifoPeek | Query _ => s' = s
  end.
Proof.
  intros Hex. destruct s as [b cap h t c].
  destruct o as [v | v | | | v | | | | qu];
    unfold_macros_in Hex; try destruct qu; split_guards Hex;
    inversion Hex; subst; simpl; rewrite ?length_insert;
    repeat split; auto.
Qed.
End Frame.

(** ** The further properties on the buffer of [example.c] *)

Lemma stacked_reachable : reachable lifo_mode (0, 0) 3 Example.stacked.
Proof.
  apply (run_reachable lifo_mode (0, 0) 3
           [LifoPush Example.a; LifoPush Example.b; LifoPush Example.c]
           Example.test (0, 0)
           [(Success, (0, 0)); (Success, (0, 0)); (Success, (0, 0))]).
  - apply reach_init.
  - reflexivity.
  - reflexivity.
Qed.

Lemma queries_agree_witness :
  trb_remaining Example.full = Done (0, Example.full) /\
  trb_is_full Example.full = Done (true, Example.full).
Proof.
  destruct (queries_agree (0, 0) 3 Example.full valid_capacity_3
              (full_reachable any_mode eq_refl eq_refl eq_refl))
    as (_ & _ & Hrem & _ & _ & Hfull & _).
  split; [exact Hrem | exact Hfull].
Defined.

Lemma tail_head_relation_witness :
  head Example.full = tail Example.full <->
  count Example.full = 0 \/ count Example.full = capacity Example.full.
Proof.
  exact (proj2 (proj2 (tail_head_relation (0, 0) 3 Example.full
                         valid_capacity_3
                         (full_reachable fifo_mode eq_refl eq_refl eq_refl)))).
Defined.

Lemma force_push_with_room_witness :
  exists s',
    trb_fifo_push Example.a Example.test = Done (0, s') /\
    trb_fifo_force_push Example.a Example.test = Done (tt, s') /\
    count s' = count Example.test + 1.
Proof.
  apply (force_push_with_room (0, 0) 3 Example.test Example.a
           valid_capacity_3).
  - apply reach_init.
  - discriminate.
Defined.

Lemma mixing_leaves_array_witness :
  trb_lifo_pop (0, 0) Example.full = Undefined /\
  trb_fifo_pop (0, 0) Example.stacked = Undefined.
Proof.
  destruct (mixing_leaves_array (0, 0) 3 valid_capacity_3) as (Hq & Hst & _).
  split.
  - apply (Hq Example.full (0, 0)).
    + exact (full_reachable fifo_mode eq_refl eq_refl eq_refl).
    + reflexivity.
    + discriminate.
  - apply (Hst Example.stacked (0, 0)).
    + exact stacked_reachable.
    + reflexivity.
Defined.

Lemma push_pop_round_trip_witness :
  (exists s',
     run [FifoPush Example.a; FifoPop] (0, 0) Example.test
     = Done ([(Success, (0, 0)); (Success, Example.a)], s') /\
     count s' = 0) /\
  (exists s',
     run [LifoPush Example.a; LifoPop] (0, 0) Example.test
     = Done ([(Success, (0, 0)); (Success, Example.a)], s') /\
     head s' = head Example.test /\ count s' = count Example.test /\
     lifo_contents s' = lifo_contents Example.test).
Proof.
  destruct (push_pop_round_trip (0, 0) 3 valid_capacity_3) as [Hq Hst].
  split.
  - apply Hq; [apply reach_init | reflexivity].
  - apply Hst; [apply reach_init | discriminate].
Defined.

Lemma peek_then_pop_witness :
  (exists r s',
     run [FifoPeek; FifoPop] (0, 0) Example.full = Done ([r; r], s')) /\
  (exists r s',
     run [LifoPeek; LifoPop] (0, 0) Example.stacked = Done ([r; r], s')).
Proof.
  destruct (peek_then_pop (0, 0) 3 valid_capacity_3) as [Hq Hst].
  split.
  - apply Hq. exact (full_reachable fifo_mode eq_refl eq_refl eq_refl).
  - apply Hst. exact stacked_reachable.
Defined.

Lemma force_push_stream_witness :
  exists s',
    run [FifoForcePush Example.b; FifoForcePush Example.b;
         FifoForcePush Example.b] (0, 0) Example.full
    = Done ([(Void, (0, 0)); (Void, (0, 0)); (Void, (0, 0))], s') /\
    fifo_contents s' = [Example.b; Example.b; Example.b] /\
    count s' = 3.
Proof.
  exact (force_push_stream (0, 0) 3 Example.full
           [Example.b; Example.b; Example.b] (0, 0) valid_capacity_3
           (full_reachable fifo_mode eq_refl eq_refl eq_refl)).
Defined.

Lemma push_stream_witness :
  exists s',
    run [FifoPush Example.a; FifoPush Example.b; FifoPush Example.c;
         FifoPush Example.a] (0, 0) Example.test
    = Done ([(Success, (0, 0)); (Success, (0, 0)); (Success, (0, 0));
             (Full, (0, 0))], s') /\
    fifo_contents s' = [Example.a; Example.b; Example.c].
Proof.
  exact (proj1 (push_stream (0, 0) 3
                  [Example.a; Example.b; Example.c; Example.a] (0, 0)
                  valid_capacity_3)
           Example.test (reach_init _ _ _)).
Defined.

Lemma drain_delivers_contents_witness :
  exists s',
    run [FifoPop; FifoPop; FifoPop] (0, 0) Example.full
    = Done ([(Success, Example.a); (Success, Example.b);
             (Success, Example.c)], s') /\
    count s' = 0.
Proof.
  exact (proj1 (drain_delivers_contents (0, 0) 3 (0, 0) valid_capacity_3)
           Example.full (full_reachable fifo_mode eq_refl eq_refl eq_refl)).
Defined.

Lemma flush_restarts_witness :
  exists tr s',
    run (Flush :: Example.lifo_part) (0, 0) Example.mixed
    = Done ((Void, (0, 0)) :: tr, s') /\
    StackSpec.steps 3 Example.lifo_part (0, 0) []
    = Some (tr, lifo_contents s').
Proof.
  exact (proj2 (flush_restarts (0, 0) 3 Example.mixed valid_capacity_3
                  mixed_reachable)
           Example.lifo_part (0, 0) eq_refl).
Defined.

Lemma contents_layout_witness :
  fifo_contents Example.full = take 3 (rotate 0 (buf Example.full)) /\
  lifo_contents Example.stacked = reverse (take 3 (buf Example.stacked)).
Proof.
  destruct (contents_layout (0, 0) 3 valid_capacity_3) as [Hq Hst].
  split.
  - exact (Hq Example.full
             (full_reachable fifo_mode eq_refl eq_refl eq_refl)).
  - exact (proj1 (Hst Example.stacked stacked_reachable)).
Defined.

Lemma calls_frame_witness :
  let s1 := {| buf := [Example.a; (0, 0); (0, 0)]; capacity := 3;
               head := 0; tail := 1; count := 1 |} in
  capacity s1 = capacity Example.test /\
  length (buf s1) = length (buf Example.test) /\
  (buf s1 = buf Example.test \/
   buf s1
   = <[Z.to_nat (tail Example.test) := Example.a]> (buf Example.test)).
Proof.
  exact (calls_frame Example.test (FifoPush Example.a) (0, 0)
           (Success, (0, 0))
           {| buf := [Example.a; (0, 0); (0, 0)]; capacity := 3;
              head := 0; tail := 1; count := 1 |} eq_refl).
Defined.
